(** * RegisterMap (src/hotspot/share/runtime/registerMap.hpp)

    A shallow embedding of HotSpot's [RegisterMap], the companion structure
    of a stack walk that records where callee-saved registers were spilled,
    together with the properties of its lookup, update and chunk
    operations.

    Conventions of the embedding:
    - [address], [intptr_t*] and oops are [Z] (0 is [nullptr]/[NULL]);
    - a [VMReg] is identified with its ordinal [reg->value()];
    - the fixed-size C arrays [_location] and [_location_valid] are lists,
      read and written by index; an access outside the array is undefined
      behaviour and shows up as the outcome [Undefined];
    - a member function returns a [result]: a value, a failed [assert]
      (fatal, debug builds only), or undefined behaviour. *)

From Stdlib Require Import ZArith Lia Bool String.
From stdpp Require Import base list.

Local Open Scope Z_scope.

(** ** Outcomes *)

Inductive result (A : Type) : Type :=
| Ok (a : A)
| AssertFailed (msg : string)
| Undefined.

Arguments Ok {A} a.
Arguments AssertFailed {A} msg.
Arguments Undefined {A}.

Definition bind {A B : Type} (c : result A) (k : A -> result B) : result B :=
  match c with
  | Ok a => k a
  | AssertFailed msg => AssertFailed msg
  | Undefined => Undefined
  end.

Declare Scope result_scope.
Delimit Scope result_scope with result.
Notation "x <- c ;; k" := (bind c (fun x => k))
  (at level 100, c at next level, right associativity) : result_scope.
Notation "c ;;; k" := (bind c (fun _ => k))
  (at level 100, right associativity) : result_scope.
Local Open Scope result_scope.

Definition is_fatal {A : Type} (c : result A) : Prop :=
  exists msg, c = AssertFailed msg.

(** ** Machine types *)

Abbreviation address := Z (only parsing).
Abbreviation VMReg := Z (only parsing).
Abbreviation stackChunkOop := Z (only parsing).
Definition nullptr : Z := 0.

(** [reg->value()] *)
Definition value (reg : VMReg) : Z := reg.

(** The largest and the smallest [int] (32-bit signed). *)
Definition max_jint : Z := 2 ^ 31 - 1.
Definition min_jint : Z := - 2 ^ 31.

(** [typedef julong LocationValidType] and
    [location_valid_type_size = sizeof(LocationValidType)*8]. *)
Definition location_valid_type_size : Z := 8 * 8.

(** [a[i]] read from a C array. *)
Definition array_get (a : list Z) (i : Z) : result Z :=
  if 0 <=? i then
    match a !! Z.to_nat i with
    | Some x => Ok x
    | None => Undefined
    end
  else Undefined.

(** [a[i] = x] on a C array. *)
Definition array_set (a : list Z) (i : Z) (x : Z) : result (list Z) :=
  if (0 <=? i) && (i <? Z.of_nat (length a))
  then Ok (<[Z.to_nat i := x]> a)
  else Undefined.

(** [(LocationValidType)1 << s]; a shift count outside [0, 64) is
    undefined.  Within the range the result fits the 64-bit word. *)
Definition shl_one (s : Z) : result Z :=
  if (0 <=? s) && (s <? location_valid_type_size)
  then Ok (Z.shiftl 1 s)
  else Undefined.

(** ** The class *)

Record RegisterMap : Type := mkRegisterMap {
  (* Location of registers *)
  _location : list Z;
  _location_valid : list Z;
  (* Should include argument_oop marked locations for compiler *)
  _include_argument_oops : bool;
  (* Reference to current thread *)
  _thread : Z;
  (* The current continuation stack chunk, if any *)
  _chunk : stackChunkOop;
  (* incremented whenever a new chunk is set *)
  _chunk_index : Z;
  (* Tells if the register map need to be updated when traversing the stack *)
  _update_map : bool;
  (* Should frames be processed by stack watermark barriers? *)
  _process_frames : bool;
  (* whether to walk frames on a continuation stack *)
  _walk_cont : bool;
  (* ignore missing registers (non-product builds) *)
  _skip_missing : bool;
  (* walking frames asynchronously, at arbitrary points (non-product builds) *)
  _async : bool;
  (* Assert that RegisterMap is not updated twice for same frame (debug builds) *)
  _update_for_id : Z
}.

(** Field updates. *)
Definition with_tables (m : RegisterMap) (locs valid : list Z) : RegisterMap :=
  mkRegisterMap locs valid
    (_include_argument_oops m) (_thread m) (_chunk m) (_chunk_index m)
    (_update_map m) (_process_frames m) (_walk_cont m)
    (_skip_missing m) (_async m) (_update_for_id m).

Definition with_chunk (m : RegisterMap) (chunk : stackChunkOop) (index : Z)
  : RegisterMap :=
  mkRegisterMap (_location m) (_location_valid m)
    (_include_argument_oops m) (_thread m) chunk index
    (_update_map m) (_process_frames m) (_walk_cont m)
    (_skip_missing m) (_async m) (_update_for_id m).

(** ** Sample maps and platforms *)

(** A map for four registers (one validity word) with nothing recorded
    and no chunk attached. *)
Definition blank4 (update : bool) : RegisterMap :=
  mkRegisterMap [0; 0; 0; 0] [0] false 0 0 0 update true false false false 0.

(** The same map after register 2 was recorded at 0x1000. *)
Definition recorded4 (update : bool) : RegisterMap :=
  mkRegisterMap [0; 0; 4096; 0] [4] false 0 0 0 update true false false false 0.

(** A map whose table holds 0x2000 for register 2. *)
Definition other4 : RegisterMap :=
  mkRegisterMap [0; 0; 8192; 0] [4] false 0 0 0 true true false false false 0.

(** A map for seventy registers (two validity words) with nothing
    recorded. *)
Definition blank70 : RegisterMap :=
  mkRegisterMap (replicate 70 0) [0; 0] false 0 0 0 true true false false false 0.

(** A platform that finds every register in a save area at 0x10000, and
    the sub-slots of composite registers in one at 0x20000, without
    looking at the map; a debug check that passes. *)
Definition pd_sample : RegisterMap -> VMReg -> address :=
  fun _ reg => 65536 + 8 * reg.
Definition pd_slot_sample : RegisterMap -> VMReg -> Z -> address :=
  fun _ base_reg slot_idx => 131072 + 8 * (base_reg + slot_idx).
Definition check_passes : RegisterMap -> bool := fun _ => true.

Section Shared.

Set Default Proof Using "Type".

(** [ConcreteRegisterImpl::number_of_registers] (code/vmreg.hpp). *)
Variable reg_count : Z.

(** Whether the build defines [ASSERT] (a debug build). *)
Variable ASSERT : bool.

(** The platform hooks of [CPU_HEADER(registerMap)]: the header includes
    the [pd_xxx] methods in the class body, so [pd_location(reg)] and
    [pd_location(base_reg, slot_idx)] are const members called on the map
    itself, which they may read; no [sp] is passed to them. *)
Variable pd_location : RegisterMap -> VMReg -> address.
Variable pd_location_slot : RegisterMap -> VMReg -> Z -> address.

(** The out-of-line debug definition of [check_location_valid()]:
    whether the check passes on the map. *)
Variable check_location_valid_debug : RegisterMap -> bool.

(** [location_valid_size =
      (reg_count+location_valid_type_size-1)/location_valid_type_size] *)
Definition location_valid_size : Z :=
  (reg_count + location_valid_type_size - 1) ÷ location_valid_type_size.

(** The two arrays have the sizes their declarations give them. *)
Definition well_sized (m : RegisterMap) : Prop :=
  length (_location m) = Z.to_nat reg_count /\
  length (_location_valid m) = Z.to_nat location_valid_size.

(** Modelled from the spec: the [assert] macro (utilities/debug.hpp) is not
    in the header.  A contract violation is "asserted/fatal in debug builds
    and unchecked in optimized builds": with [ASSERT] the condition is
    evaluated and a false one is fatal; without it the macro, and the
    evaluation of [p], are compiled out. *)
Definition vmassert (p : result bool) (msg : string) : result unit :=
  if ASSERT then
    b <- p ;; if (b : bool) then Ok tt else AssertFailed msg
  else Ok tt.

(** [check_location_valid()]: empty unless [ASSERT] is defined. *)
Definition check_location_valid (m : RegisterMap) : result unit :=
  if ASSERT then
    if check_location_valid_debug m then Ok tt
    else AssertFailed "check_location_valid"
  else Ok tt.

(** [address location(VMReg reg, intptr_t* sp) const].  The header keeps
    [index] in an [int], which the quotient of an ordinal in
    [0, reg_count) fits.  For any other ordinal a debug build stops at the
    first range check, before [index] is used; a product build reads the
    word at the narrowed index, and the model, which carries the quotient
    as it is, agrees with it as long as the quotient fits an [int]. *)
Definition location (m : RegisterMap) (reg : VMReg) (sp : Z) : result address :=
  let index := value reg ÷ location_valid_type_size in
  vmassert (Ok ((0 <=? value reg) && (value reg <? reg_count))) "range check" ;;;
  vmassert (Ok ((0 <=? index) && (index <? location_valid_size))) "range check" ;;;
  w <- array_get (_location_valid m) index ;;
  bit <- shl_one (Z.rem (value reg) location_valid_type_size) ;;
  if negb (Z.land w bit =? 0) then
    array_get (_location m) (value reg)
  else
    Ok (pd_location m reg).

(** [address location(VMReg base_reg, int slot_idx) const], the overload
    of [location] on a slot index; [pd_location_slot] is the two-argument
    overload of [pd_location]. *)
Definition location_slot (m : RegisterMap) (base_reg : VMReg) (slot_idx : Z)
  : result address :=
  if 0 <? slot_idx then
    Ok (pd_location_slot m base_reg slot_idx)
  else
    location m base_reg nullptr.

(** [address trusted_location(VMReg reg) const] *)
Definition trusted_location (m : RegisterMap) (reg : VMReg) : result address :=
  array_get (_location m) (value reg).

(** The loop of [verify]: [n] iterations left, at index [i]. *)
Fixpoint verify_loop (m other : RegisterMap) (n : nat) (i : Z) : result unit :=
  match n with
  | O => Ok tt
  | S n' =>
      vmassert (a <- array_get (_location m) i ;;
                b <- array_get (_location other) i ;;
                Ok (a =? b)) EmptyString ;;;
      verify_loop m other n' (i + 1)
  end.

(** [void verify(RegisterMap& other)]:
    [for (int i = 0; i < reg_count; ++i) assert(...)] *)
Definition verify (m other : RegisterMap) : result unit :=
  verify_loop m other (Z.to_nat reg_count) 0.

(** The two stores of [set_location]: the assignment to
    [_location[reg->value()]] and the [|=] of the register's bit into
    [_location_valid[index]] (a read of the word, then a write). *)
Definition record_location (m : RegisterMap) (reg : VMReg) (loc : address)
  : result RegisterMap :=
  let index := value reg ÷ location_valid_type_size in
  locs <- array_set (_location m) (value reg) loc ;;
  w <- array_get (_location_valid m) index ;;
  bit <- shl_one (Z.rem (value reg) location_valid_type_size) ;;
  valid <- array_set (_location_valid m) index (Z.lor w bit) ;;
  Ok (with_tables m locs valid).

(** [void set_location(VMReg reg, address loc)] *)
Definition set_location (m : RegisterMap) (reg : VMReg) (loc : address)
  : result RegisterMap :=
  let index := value reg ÷ location_valid_type_size in
  vmassert (Ok ((0 <=? value reg) && (value reg <? reg_count))) "range check" ;;;
  vmassert (Ok ((0 <=? index) && (index <? location_valid_size))) "range check" ;;;
  vmassert (Ok (_update_map m)) "updating map that does not need updating" ;;;
  m' <- record_location m reg loc ;;
  check_location_valid m' ;;;
  Ok m'.

(** ** Accessors and the chunk linkage *)

Definition include_argument_oops (m : RegisterMap) : bool := _include_argument_oops m.
Definition thread (m : RegisterMap) : Z := _thread m.
Definition update_map (m : RegisterMap) : bool := _update_map m.
Definition process_frames (m : RegisterMap) : bool := _process_frames m.
Definition walk_cont (m : RegisterMap) : bool := _walk_cont m.

(** [bool in_cont() const { return _chunk() != NULL; }] *)
Definition in_cont (m : RegisterMap) : bool := negb (_chunk m =? 0).

Definition stack_chunk (m : RegisterMap) : stackChunkOop := _chunk m.
Definition stack_chunk_index (m : RegisterMap) : Z := _chunk_index m.

(** [void set_stack_chunk_index(int index) { _chunk_index = index; }] *)
Definition set_stack_chunk_index (m : RegisterMap) (index : Z) : RegisterMap :=
  with_chunk m (_chunk m) index.

(** ** Members defined outside the header *)

(** Modelled from the spec: the body of [RegisterMap::clear()] is not in the
    header.  "Zeroes the validity bitset (all registers become unknown)":
    every word of [_location_valid] is set to 0, nothing else is touched. *)
Definition clear (m : RegisterMap) : RegisterMap :=
  with_tables m (_location m) ((fun _ => 0) <$> _location_valid m).

(** [++] on an [int]: overflow of a signed integer is undefined. *)
Definition int_increment (x : Z) : result Z :=
  if x <? max_jint then Ok (x + 1) else Undefined.

(** Modelled from the spec: the body of [RegisterMap::set_stack_chunk] is
    not in the header.  "Attaches a new segment handle and increments
    chunkIndex" (the field's comment: incremented whenever a new chunk is
    set). *)
Definition set_stack_chunk (m : RegisterMap) (chunk : stackChunkOop)
  : result RegisterMap :=
  index <- int_increment (_chunk_index m) ;;
  Ok (with_chunk m chunk index).

(** Successive [set_stack_chunk] calls on one instance. *)
Fixpoint set_stack_chunks (m : RegisterMap) (chunks : list stackChunkOop)
  : result RegisterMap :=
  match chunks with
  | [] => Ok m
  | chunk :: rest => m' <- set_stack_chunk m chunk ;; set_stack_chunks m' rest
  end.

(** ** The validity bitset, read as a set of registers *)

(** Bit [reg mod 64] of word [reg / 64]. *)
Definition location_valid_bit (m : RegisterMap) (reg : VMReg) : bool :=
  Z.testbit
    (default 0 (_location_valid m !! Z.to_nat (value reg / location_valid_type_size)))
    (value reg mod location_valid_type_size).

(** The map [set_location] leaves behind when its stores are in range:
    [loc] in the register's table entry, the register's bit set. *)
Definition with_location (m : RegisterMap) (reg : VMReg) (loc : address)
  : RegisterMap :=
  let index := Z.to_nat (value reg / location_valid_type_size) in
  let w := default 0 (_location_valid m !! index) in
  with_tables m
    (<[Z.to_nat (value reg) := loc]> (_location m))
    (<[index := Z.lor w (Z.shiftl 1 (value reg mod location_valid_type_size))]>
       (_location_valid m)).

(** Every validity word is a [julong]. *)
Definition julong_words (m : RegisterMap) : Prop :=
  Forall (fun w => 0 <= w < 2 ^ location_valid_type_size) (_location_valid m).

(** The raw tables of two maps agree on every register. *)
Definition tables_agree (m other : RegisterMap) : Prop :=
  forall i, 0 <= i < reg_count ->
    _location m !! Z.to_nat i = _location other !! Z.to_nat i.

(** ** The remaining members of the header *)

(** Whether the build defines [PRODUCT]. *)
Variable PRODUCT : bool.

(** [void set_include_argument_oops(bool f)  { _include_argument_oops = f; }] *)
Definition set_include_argument_oops (m : RegisterMap) (f : bool) : RegisterMap :=
  mkRegisterMap (_location m) (_location_valid m)
    f (_thread m) (_chunk m) (_chunk_index m)
    (_update_map m) (_process_frames m) (_walk_cont m)
    (_skip_missing m) (_async m) (_update_for_id m).

(** [void set_walk_cont(bool value) { _walk_cont = value; }] *)
Definition set_walk_cont (m : RegisterMap) (value : bool) : RegisterMap :=
  mkRegisterMap (_location m) (_location_valid m)
    (_include_argument_oops m) (_thread m) (_chunk m) (_chunk_index m)
    (_update_map m) (_process_frames m) value
    (_skip_missing m) (_async m) (_update_for_id m).

(** [void set_async(bool value) { NOT_PRODUCT(_async = value;) }] *)
Definition set_async (m : RegisterMap) (value : bool) : RegisterMap :=
  if PRODUCT then m
  else
    mkRegisterMap (_location m) (_location_valid m)
      (_include_argument_oops m) (_thread m) (_chunk m) (_chunk_index m)
      (_update_map m) (_process_frames m) (_walk_cont m)
      (_skip_missing m) value (_update_for_id m).

(** [void set_skip_missing(bool value) { NOT_PRODUCT(_skip_missing = value;) }] *)
Definition set_skip_missing (m : RegisterMap) (value : bool) : RegisterMap :=
  if PRODUCT then m
  else
    mkRegisterMap (_location m) (_location_valid m)
      (_include_argument_oops m) (_thread m) (_chunk m) (_chunk_index m)
      (_update_map m) (_process_frames m) (_walk_cont m)
      value (_async m) (_update_for_id m).

(** [bool is_async() const] and [bool should_skip_missing() const], members
    of non-product builds only. *)
Definition is_async (m : RegisterMap) : bool := _async m.
Definition should_skip_missing (m : RegisterMap) : bool := _skip_missing m.

(** ** Sequences of updates *)

(** Successive [set_location] calls on one instance, as a frame transition
    makes them: one per callee-saved register it finds. *)
Fixpoint set_locations (m : RegisterMap) (updates : list (VMReg * address))
  : result RegisterMap :=
  match updates with
  | [] => Ok m
  | (reg, loc) :: rest => m' <- set_location m reg loc ;; set_locations m' rest
  end.

(** The address the last update of [reg] in the list wrote, if any. *)
Fixpoint last_write (reg : VMReg) (updates : list (VMReg * address))
  : option address :=
  match updates with
  | [] => None
  | (reg', loc) :: rest =>
      match last_write reg rest with
      | Some later => Some later
      | None => if value reg' =? value reg then Some loc else None
      end
  end.

(** The map with [loc] written into a table entry and the validity bits
    left alone: a stale entry when the register's bit is clear. *)
Definition with_entry (m : RegisterMap) (reg : VMReg) (loc : address)
  : RegisterMap :=
  with_tables m (<[Z.to_nat (value reg) := loc]> (_location m)) (_location_valid m).

(** ** Platform resolvers that read the map *)

(** The resolver answers from the two tables alone. *)
Definition reads_tables_only (pd : RegisterMap -> VMReg -> address) : Prop :=
  forall m1 m2,
    _location m1 = _location m2 ->
    _location_valid m1 = _location_valid m2 ->
    forall reg, pd m1 reg = pd m2 reg.

(** The resolver answers from what the map has recorded alone: the
    validity bits and the table entries of the registers whose bit is
    set, which is what it sees when it reads the map through [location]. *)
Definition reads_recorded_only (pd : RegisterMap -> VMReg -> address) : Prop :=
  forall m1 m2,
    _location_valid m1 = _location_valid m2 ->
    (forall reg, 0 <= value reg -> location_valid_bit m1 reg = true ->
       _location m1 !! Z.to_nat (value reg) = _location m2 !! Z.to_nat (value reg)) ->
    forall reg, pd m1 reg = pd m2 reg.

(** A platform whose table holds the lower halves of wide registers: an
    odd ordinal is the upper half of the register below it and lies 4
    bytes above the location recorded for that one; without a recorded,
    non-null location there the resolver finds nothing. *)
Definition pd_upper_half : RegisterMap -> VMReg -> address :=
  fun m reg =>
    if (0 <? reg) && Z.odd reg && location_valid_bit m (reg - 1) then
      match _location m !! Z.to_nat (reg - 1) with
      | Some base => if base =? 0 then 0 else base + 4
      | None => 0
      end
    else 0.

(** One call of a flag or index setter of the header. *)
Inductive setter_step (m : RegisterMap) : RegisterMap -> Prop :=
| step_include_argument_oops (f : bool) :
    setter_step m (set_include_argument_oops m f)
| step_walk_cont (v : bool) : setter_step m (set_walk_cont m v)
| step_async (v : bool) : setter_step m (set_async m v)
| step_skip_missing (v : bool) : setter_step m (set_skip_missing m v)
| step_stack_chunk_index (i : Z) : setter_step m (set_stack_chunk_index m i).

(** Linear arithmetic over register ordinals. *)
Ltac reg_lia := unfold value in *; lia.

(** ** Bits and indices *)

Lemma land_bit_testbit (w s : Z) :
  0 <= s -> negb (Z.land w (Z.shiftl 1 s) =? 0) = Z.testbit w s.
Proof.
  intros Hs. rewrite Z.shiftl_1_l.
  destruct (Z.testbit w s) eqn:E.
  - apply negb_true_iff, Z.eqb_neq. intros H0.
    assert (Z.testbit (Z.land w (2 ^ s)) s = true) as H
      by (rewrite Z.land_spec, E, Z.pow2_bits_true; auto).
    rewrite H0, Z.bits_0 in H. discriminate.
  - apply negb_false_iff, Z.eqb_eq. apply Z.bits_inj'. intros n Hn.
    rewrite Z.land_spec, Z.bits_0, Z.pow2_bits_eqb by lia.
    destruct (Z.eqb_spec s n) as [->|_]; rewrite ?E; auto using andb_false_r.
Qed.

Lemma testbit_lor_bit_same (w s : Z) :
  0 <= s -> Z.testbit (Z.lor w (Z.shiftl 1 s)) s = true.
Proof.
  intros Hs. rewrite Z.shiftl_1_l, Z.lor_spec, Z.pow2_bits_true by lia.
  apply orb_true_r.
Qed.

Lemma testbit_lor_bit_other (w s t : Z) :
  0 <= s -> s <> t -> Z.testbit (Z.lor w (Z.shiftl 1 s)) t = Z.testbit w t.
Proof.
  intros Hs Hne. rewrite Z.shiftl_1_l, Z.lor_spec, Z.pow2_bits_false by lia.
  apply orb_false_r.
Qed.

(** Setting a bit keeps a word within its 64 bits: the [|=] of
    [set_location] never wraps. *)
Lemma lor_bit_julong (w s : Z) :
  0 <= w < 2 ^ location_valid_type_size ->
  0 <= s < location_valid_type_size ->
  0 <= Z.lor w (Z.shiftl 1 s) < 2 ^ location_valid_type_size.
Proof.
  change location_valid_type_size with 64.
  intros Hw Hs. rewrite Z.shiftl_1_l.
  assert (0 < 2 ^ s) as Hp by (apply Z.pow_pos_nonneg; lia).
  assert (2 ^ s < 2 ^ 64) as Hb by (apply Z.pow_lt_mono_r; lia).
  split; [apply Z.lor_nonneg; lia|].
  assert (0 < Z.lor w (2 ^ s)) as Hpos.
  { assert (0 <= Z.lor w (2 ^ s)) by (apply Z.lor_nonneg; lia).
    assert (Z.lor w (2 ^ s) <> 0) by (rewrite Z.lor_eq_0_iff; lia). lia. }
  apply Z.log2_lt_pow2; [assumption|].
  rewrite Z.log2_lor by lia.
  apply Z.max_lub_lt.
  - destruct (Z.eq_dec w 0) as [->|]; [reflexivity|].
    apply Z.log2_lt_pow2; lia.
  - rewrite Z.log2_pow2; lia.
Qed.

Lemma reg_quot (r : Z) :
  0 <= r -> r ÷ location_valid_type_size = r / location_valid_type_size.
Proof. intros. apply Z.quot_div_nonneg; [lia | reflexivity]. Qed.

Lemma reg_rem (r : Z) :
  0 <= r -> Z.rem r location_valid_type_size = r mod location_valid_type_size.
Proof. intros. apply Z.rem_mod_nonneg; [lia | reflexivity]. Qed.

Lemma reg_bit_range (r : Z) :
  0 <= r mod location_valid_type_size < location_valid_type_size.
Proof. apply Z.mod_pos_bound. reflexivity. Qed.

Lemma reg_index_range (r : Z) :
  0 <= r < reg_count ->
  0 <= r / location_valid_type_size < location_valid_size.
Proof.
  intros Hr. unfold location_valid_size.
  rewrite Z.quot_div_nonneg by (change location_valid_type_size with 64; lia).
  change location_valid_type_size with 64.
  clear pd_location pd_location_slot check_location_valid_debug.
  Z.div_mod_to_equations. lia.
Qed.

(** Two registers of one word have different bits. *)
Lemma reg_bits_differ (r r' : Z) :
  r' <> r ->
  r' / location_valid_type_size = r / location_valid_type_size ->
  r mod location_valid_type_size <> r' mod location_valid_type_size.
Proof.
  change location_valid_type_size with 64. intros Hne Hq Hm.
  apply Hne. rewrite (Z.div_mod r' 64), (Z.div_mod r 64) by lia. congruence.
Qed.

(** ** The primitive steps *)

Lemma vmassert_holds (msg : string) : vmassert (Ok true) msg = Ok tt.
Proof. unfold vmassert. destruct ASSERT; reflexivity. Qed.

Lemma vmassert_product (p : result bool) (msg : string) :
  ASSERT = false -> vmassert p msg = Ok tt.
Proof. unfold vmassert. intros ->. reflexivity. Qed.

Lemma vmassert_debug_false (msg : string) :
  ASSERT = true -> vmassert (Ok false) msg = AssertFailed msg.
Proof. unfold vmassert. intros ->. reflexivity. Qed.

Lemma array_get_lookup (a : list Z) (i x : Z) :
  0 <= i -> a !! Z.to_nat i = Some x -> array_get a i = Ok x.
Proof.
  intros Hi Hx. unfold array_get.
  destruct (Z.leb_spec 0 i); [|lia]. rewrite Hx. reflexivity.
Qed.

Lemma array_get_in_range (a : list Z) (i : Z) :
  0 <= i < Z.of_nat (length a) ->
  array_get a i = Ok (default 0 (a !! Z.to_nat i)).
Proof.
  intros Hi. destruct (lookup_lt_is_Some_2 a (Z.to_nat i)) as [x Hx]; [lia|].
  rewrite Hx. apply array_get_lookup; [lia | assumption].
Qed.

Lemma array_set_in_range (a : list Z) (i x : Z) :
  0 <= i < Z.of_nat (length a) ->
  array_set a i x = Ok (<[Z.to_nat i := x]> a).
Proof.
  intros Hi. unfold array_set.
  destruct (Z.leb_spec 0 i); [|lia].
  destruct (Z.ltb_spec i (Z.of_nat (length a))); [reflexivity | lia].
Qed.

Lemma array_set_inv (a b : list Z) (i x : Z) :
  array_set a i x = Ok b ->
  0 <= i < Z.of_nat (length a) /\ b = <[Z.to_nat i := x]> a.
Proof.
  unfold array_set.
  destruct (Z.leb_spec 0 i); [|discriminate].
  destruct (Z.ltb_spec i (Z.of_nat (length a))); [|discriminate].
  intros [= <-]. split; [lia | reflexivity].
Qed.

Lemma array_get_inv (a : list Z) (i x : Z) :
  array_get a i = Ok x -> 0 <= i /\ a !! Z.to_nat i = Some x.
Proof.
  unfold array_get.
  destruct (Z.leb_spec 0 i); [|discriminate].
  destruct (a !! Z.to_nat i); [|discriminate].
  intros [= <-]. split; [assumption | reflexivity].
Qed.

Lemma shl_one_in_range (s : Z) :
  0 <= s < location_valid_type_size -> shl_one s = Ok (Z.shiftl 1 s).
Proof.
  intros Hs. unfold shl_one.
  destruct (Z.leb_spec 0 s); [|lia].
  destruct (Z.ltb_spec s location_valid_type_size); [reflexivity | lia].
Qed.

Lemma shl_one_inv (s b : Z) :
  shl_one s = Ok b -> 0 <= s < location_valid_type_size /\ b = Z.shiftl 1 s.
Proof.
  unfold shl_one.
  destruct (Z.leb_spec 0 s); [|discriminate].
  destruct (Z.ltb_spec s location_valid_type_size); [|discriminate].
  intros [= <-]. split; [lia | reflexivity].
Qed.

Lemma bind_Ok_inv {A B : Type} (c : result A) (k : A -> result B) (b : B) :
  bind c k = Ok b -> exists a, c = Ok a /\ k a = Ok b.
Proof. destruct c; simpl; intros H; try discriminate. eauto. Qed.

(** ** Lookup *)

(** The lookup never consults its [sp] argument. *)
Lemma location_sp_irrelevant (m : RegisterMap) (reg : VMReg) (sp sp' : Z) :
  location m reg sp = location m reg sp'.
Proof. reflexivity. Qed.

Lemma range_check_holds (x lo hi : Z) :
  lo <= x < hi -> (lo <=? x) && (x <? hi) = true.
Proof.
  intros. apply andb_true_iff. split; [apply Z.leb_le | apply Z.ltb_lt]; lia.
Qed.

(** In range the lookup is a test of the register's bit. *)
Lemma location_in_range (m : RegisterMap) (reg : VMReg) (sp : Z) :
  well_sized m -> 0 <= value reg < reg_count ->
  location m reg sp =
    if location_valid_bit m reg then trusted_location m reg
    else Ok (pd_location m reg).
Proof.
  intros [Hloc Hval] Hr.
  pose proof (reg_index_range _ Hr) as Hidx.
  unfold location, location_valid_bit, trusted_location.
  rewrite reg_quot, reg_rem by lia.
  rewrite !range_check_holds, !vmassert_holds by assumption. simpl.
  rewrite array_get_in_range by lia. simpl.
  rewrite shl_one_in_range by apply reg_bit_range. simpl.
  rewrite land_bit_testbit by apply reg_bit_range.
  reflexivity.
Qed.

(** Two maps that agree on a register's table entry and on its bit, and
    on the platform's answer when the bit is clear, give the same lookup,
    whatever else they hold. *)
Lemma location_ext (m1 m2 : RegisterMap) (reg : VMReg) (sp : Z) :
  0 <= value reg ->
  _location m1 !! Z.to_nat (value reg) = _location m2 !! Z.to_nat (value reg) ->
  (fun w => Z.testbit w (value reg mod location_valid_type_size))
    <$> (_location_valid m1 !! Z.to_nat (value reg / location_valid_type_size))
  = (fun w => Z.testbit w (value reg mod location_valid_type_size))
    <$> (_location_valid m2 !! Z.to_nat (value reg / location_valid_type_size)) ->
  (location_valid_bit m1 reg = false ->
     pd_location m1 reg = pd_location m2 reg) ->
  location m1 reg sp = location m2 reg sp.
Proof.
  intros Hr Hloc Hbit Hpd. unfold location.
  rewrite reg_quot, reg_rem by assumption.
  destruct (vmassert _ _); simpl; try reflexivity.
  destruct (vmassert _ _); simpl; try reflexivity.
  unfold array_get at 1 3. unfold location_valid_bit in Hpd.
  destruct (0 <=? value reg / location_valid_type_size); [|reflexivity].
  destruct (_location_valid m1 !! _) as [w1|], (_location_valid m2 !! _) as [w2|];
    simpl in Hbit, Hpd; try discriminate; try reflexivity.
  injection Hbit as Hbit. simpl.
  rewrite shl_one_in_range by apply reg_bit_range. simpl.
  rewrite !land_bit_testbit by apply reg_bit_range.
  rewrite <- Hbit.
  destruct (Z.testbit w1 _) eqn:E; simpl.
  - unfold array_get. rewrite Hloc. reflexivity.
  - rewrite (Hpd eq_refl). reflexivity.
Qed.

(** C1: for a register ordinal in [0, reg_count) whose validity bit is not
    set, [location(r, fp)] returns the platform fallback [pd_location(r)]
    and not the table entry; when the bit is set it returns the stored
    address, the one [trusted_location(r)] reads.  The fallback is the
    map's own [pd_location(r)], the same for every [fp]: no [sp] is passed
    to it. *)
Theorem location_valid_or_fallback (m : RegisterMap) (r : VMReg) (fp : Z) :
  well_sized m -> 0 <= value r < reg_count ->
  (location_valid_bit m r = false -> location m r fp = Ok (pd_location m r)) /\
  (location_valid_bit m r = true ->
     location m r fp = trusted_location m r /\
     exists a, _location m !! Z.to_nat (value r) = Some a /\
               location m r fp = Ok a).
Proof.
  intros Hm Hr. rewrite (location_in_range m r fp Hm Hr).
  split; intros ->; [reflexivity|].
  split; [reflexivity|].
  destruct Hm as [Hloc _].
  destruct (lookup_lt_is_Some_2 (_location m) (Z.to_nat (value r))) as [a Ha];
    [lia|].
  exists a. split; [assumption|].
  apply array_get_lookup; [lia | assumption].
Qed.

(** C4: with [slot_idx > 0] the slot lookup is the platform's multi-slot
    resolver [pd_location(base_reg, slot_idx)] for every map, so also when
    the base register's validity bit is set; with [slot_idx == 0] it is the
    scalar lookup [location(base_reg, fp)], for every [fp]. *)
Theorem location_slot_dispatch (m : RegisterMap) (base_reg : VMReg) (slot_idx : Z) :
  (0 < slot_idx ->
     location_slot m base_reg slot_idx
     = Ok (pd_location_slot m base_reg slot_idx)) /\
  (forall fp, location_slot m base_reg 0 = location m base_reg fp).
Proof.
  split.
  - intros Hs. unfold location_slot.
    destruct (Z.ltb_spec 0 slot_idx); [reflexivity | lia].
  - intros fp. unfold location_slot. simpl.
    apply location_sp_irrelevant.
Qed.

(** C9: for every [slot_idx <= 0], negative ones included, the slot lookup
    takes the scalar path and equals [location(base_reg, nullptr)]; it is
    routed to the platform multi-slot resolver exactly when
    [slot_idx > 0]. *)
Theorem location_slot_nonpositive (m : RegisterMap) (base_reg : VMReg) (slot_idx : Z) :
  (slot_idx <= 0 ->
     location_slot m base_reg slot_idx = location m base_reg nullptr) /\
  (0 < slot_idx ->
     location_slot m base_reg slot_idx
     = Ok (pd_location_slot m base_reg slot_idx)).
Proof.
  unfold location_slot.
  split; intros Hs; destruct (Z.ltb_spec 0 slot_idx); try reflexivity; lia.
Qed.

(** ** Update *)

Lemma with_location_lookup_same (m : RegisterMap) (reg : VMReg) (loc : address) :
  0 <= value reg < Z.of_nat (length (_location m)) ->
  _location (with_location m reg loc) !! Z.to_nat (value reg) = Some loc.
Proof. intros Hr. simpl. apply list_lookup_insert_eq. reg_lia. Qed.

Lemma with_location_lookup_other (m : RegisterMap) (reg reg' : VMReg) (loc : address) :
  0 <= value reg -> 0 <= value reg' -> value reg' <> value reg ->
  _location (with_location m reg loc) !! Z.to_nat (value reg')
  = _location m !! Z.to_nat (value reg').
Proof.
  intros Hr Hr' Hne. simpl.
  apply list_lookup_insert_ne. reg_lia.
Qed.

Lemma with_location_bit_same (m : RegisterMap) (reg : VMReg) (loc : address) :
  0 <= value reg / location_valid_type_size
     < Z.of_nat (length (_location_valid m)) ->
  location_valid_bit (with_location m reg loc) reg = true.
Proof.
  intros Hidx. unfold location_valid_bit. simpl.
  rewrite list_lookup_insert_eq by reg_lia. simpl.
  apply testbit_lor_bit_same, reg_bit_range.
Qed.

(** The bits of the other registers, word by word. *)
Lemma with_location_word_other (m : RegisterMap) (reg reg' : VMReg) (loc : address) :
  0 <= value reg -> 0 <= value reg' -> value reg' <> value reg ->
  (fun w => Z.testbit w (value reg' mod location_valid_type_size))
    <$> (_location_valid (with_location m reg loc)
           !! Z.to_nat (value reg' / location_valid_type_size))
  = (fun w => Z.testbit w (value reg' mod location_valid_type_size))
    <$> (_location_valid m !! Z.to_nat (value reg' / location_valid_type_size)).
Proof.
  intros Hr Hr' Hne. unfold value in *. simpl.
  assert (0 <= reg / location_valid_type_size /\
          0 <= reg' / location_valid_type_size) as [Hq Hq']
    by (change location_valid_type_size with 64;
        clear pd_location pd_location_slot check_location_valid_debug;
        split; Z.div_mod_to_equations; lia).
  rewrite list_lookup_insert. case_decide as Hd; [|reflexivity].
  destruct Hd as [Heq Hlt].
  apply Z2Nat.inj in Heq; [|assumption..].
  destruct (lookup_lt_is_Some_2 _ _ Hlt) as [w Hw].
  rewrite <- Heq, Hw. simpl. f_equal.
  apply testbit_lor_bit_other; [apply reg_bit_range|].
  apply reg_bits_differ; [assumption | congruence].
Qed.

Lemma with_location_bit_other (m : RegisterMap) (reg reg' : VMReg) (loc : address) :
  0 <= value reg -> 0 <= value reg' -> value reg' <> value reg ->
  location_valid_bit (with_location m reg loc) reg' = location_valid_bit m reg'.
Proof.
  intros Hr Hr' Hne. unfold location_valid_bit.
  pose proof (with_location_word_other m reg reg' loc Hr Hr' Hne) as H.
  destruct (_location_valid (with_location m reg loc) !! _),
           (_location_valid m !! _); simpl in *; congruence.
Qed.

Lemma with_location_well_sized (m : RegisterMap) (reg : VMReg) (loc : address) :
  well_sized m -> well_sized (with_location m reg loc).
Proof.
  intros [Hloc Hval]. split; simpl; rewrite length_insert; assumption.
Qed.

Lemma with_location_julong_words (m : RegisterMap) (reg : VMReg) (loc : address) :
  julong_words m -> julong_words (with_location m reg loc).
Proof.
  unfold julong_words. intros Hm. simpl.
  apply Forall_insert; [assumption|].
  apply lor_bit_julong; [|apply reg_bit_range].
  destruct (_location_valid m !! _) as [w|] eqn:Hw; simpl.
  - exact (Forall_lookup_1 _ _ _ _ Hm Hw).
  - change location_valid_type_size with 64. lia.
Qed.

(** The stores succeed exactly when the register's table entry exists and
    its bit can be addressed, and then leave [with_location] behind. *)
Lemma record_location_inv (m m' : RegisterMap) (reg : VMReg) (loc : address) :
  record_location m reg loc = Ok m' ->
  0 <= value reg < Z.of_nat (length (_location m)) /\
  m' = with_location m reg loc.
Proof.
  unfold record_location. intros H.
  apply bind_Ok_inv in H as (locs & Hlocs & H).
  apply bind_Ok_inv in H as (w & Hw & H).
  apply bind_Ok_inv in H as (bit & Hbit & H).
  apply bind_Ok_inv in H as (valid & Hvalid & H).
  injection H as <-.
  apply array_set_inv in Hlocs as [Hr ->].
  apply array_set_inv in Hvalid as [_ ->].
  apply shl_one_inv in Hbit as [_ ->].
  rewrite reg_quot in Hw by lia. rewrite reg_rem, reg_quot by lia.
  apply array_get_inv in Hw as [_ Hw].
  split; [assumption|]. unfold with_location. rewrite Hw. reflexivity.
Qed.

Lemma record_location_in_range (m : RegisterMap) (reg : VMReg) (loc : address) :
  well_sized m -> 0 <= value reg < reg_count ->
  record_location m reg loc = Ok (with_location m reg loc).
Proof.
  intros [Hloc Hval] Hr.
  pose proof (reg_index_range _ Hr) as Hidx.
  unfold record_location, with_location.
  rewrite reg_quot, reg_rem by lia.
  rewrite array_set_in_range by lia. simpl.
  rewrite array_get_in_range by lia. simpl.
  rewrite shl_one_in_range by apply reg_bit_range. simpl.
  rewrite array_set_in_range by lia. reflexivity.
Qed.

Lemma set_location_inv (m m' : RegisterMap) (reg : VMReg) (loc : address) :
  set_location m reg loc = Ok m' -> record_location m reg loc = Ok m'.
Proof.
  unfold set_location. intros H.
  apply bind_Ok_inv in H as (_ & _ & H).
  apply bind_Ok_inv in H as (_ & _ & H).
  apply bind_Ok_inv in H as (_ & _ & H).
  apply bind_Ok_inv in H as (m1 & Hm1 & H).
  apply bind_Ok_inv in H as (_ & _ & H).
  injection H as <-. assumption.
Qed.

Lemma check_location_valid_product (m : RegisterMap) :
  ASSERT = false -> check_location_valid m = Ok tt.
Proof. unfold check_location_valid. intros ->. reflexivity. Qed.

(** What a lookup of the recorded register gives afterwards. *)
Lemma location_with_location (m : RegisterMap) (r : VMReg) (addr : address) (fp : Z) :
  well_sized m -> 0 <= value r < reg_count ->
  location (with_location m r addr) r fp = Ok addr /\
  trusted_location (with_location m r addr) r = Ok addr.
Proof.
  intros Hm Hr.
  pose proof (reg_index_range _ Hr) as Hidx.
  pose proof Hm as [Hloc Hval].
  assert (trusted_location (with_location m r addr) r = Ok addr) as Ht.
  { apply array_get_lookup; [lia|]. apply with_location_lookup_same. lia. }
  split; [|assumption].
  rewrite location_in_range by (auto using with_location_well_sized).
  rewrite with_location_bit_same by lia. assumption.
Qed.

(** C3: on a map with updating enabled and for a register in range,
    whenever [set_location(r, addr)] returns, [location(r, fp) == addr]
    for every frame pointer [fp] and [trusted_location(r) == addr]; and it
    does return, in a debug build provided the build's own
    [check_location_valid] passes on the updated map. *)
Theorem set_location_then_lookup (m : RegisterMap) (r : VMReg) (addr : address) :
  well_sized m -> 0 <= value r < reg_count -> update_map m = true ->
  (check_location_valid (with_location m r addr) = Ok tt ->
     set_location m r addr = Ok (with_location m r addr)) /\
  (forall m',
     set_location m r addr = Ok m' ->
     (forall fp, location m' r fp = Ok addr) /\
     trusted_location m' r = Ok addr).
Proof.
  intros Hm Hr Hupd.
  pose proof (reg_index_range _ Hr) as Hidx.
  split.
  - intros Hchk. unfold set_location, update_map in *.
    rewrite reg_quot by lia.
    rewrite !range_check_holds, Hupd, !vmassert_holds by assumption. simpl.
    rewrite record_location_in_range by assumption. simpl.
    rewrite Hchk. reflexivity.
  - intros m' H. apply set_location_inv, record_location_inv in H as [_ ->].
    split; [intros fp|]; apply location_with_location; assumption.
Qed.

(** C2, as the code has it: on a map with updating disabled, a debug build
    stops [set_location(r, addr)] at an assertion, so there is no updated
    map and no located value changes; a product build has no such check,
    performs the stores, and [location(r, fp)] is [addr] afterwards. *)
Theorem set_location_update_disabled (m : RegisterMap) (r : VMReg) (addr : address) :
  update_map m = false ->
  (ASSERT = true -> is_fatal (set_location m r addr)) /\
  (ASSERT = false -> well_sized m -> 0 <= value r < reg_count ->
     set_location m r addr = Ok (with_location m r addr) /\
     forall fp, location (with_location m r addr) r fp = Ok addr).
Proof.
  unfold update_map. intros Hupd. split.
  - intros Hdbg. unfold set_location, is_fatal. rewrite Hupd.
    rewrite (vmassert_debug_false _ Hdbg).
    unfold vmassert. rewrite Hdbg. simpl.
    destruct (_ && _); simpl; [|eauto].
    destruct (_ && _); simpl; eauto.
  - intros Hprod Hm Hr. split.
    + unfold set_location.
      rewrite !vmassert_product by assumption. simpl.
      rewrite record_location_in_range by assumption. simpl.
      rewrite check_location_valid_product by assumption. reflexivity.
    + intros fp. apply location_with_location; assumption.
Qed.

(** C8, as the code has it: [set_location(r, addr)] changes register
    [r]'s entry only: for every other register [r'] in [0, reg_count) the
    table entry, the validity bit and [trusted_location(r')] are what they
    were, and so is [location(r', fp)] when the bit of [r'] is set or the
    map's [pd_location(r')] answers on the updated map as it did before;
    the fields [include_argument_oops], [thread], [chunk], [chunk_index],
    [update_map], [process_frames] and [walk_cont] are unchanged.
    ([pd_location] is a member of the map: a platform that derives the
    location of [r'] from what is recorded for [r] moves the lookup of
    [r'] with the update.) *)
Theorem set_location_frame (m m' : RegisterMap) (r : VMReg) (addr : address) :
  set_location m r addr = Ok m' ->
  (forall r', 0 <= value r' < reg_count -> value r' <> value r ->
     _location m' !! Z.to_nat (value r') = _location m !! Z.to_nat (value r') /\
     location_valid_bit m' r' = location_valid_bit m r' /\
     trusted_location m' r' = trusted_location m r' /\
     forall fp,
       location_valid_bit m r' = true \/ pd_location m' r' = pd_location m r' ->
       location m' r' fp = location m r' fp) /\
  include_argument_oops m' = include_argument_oops m /\
  thread m' = thread m /\
  stack_chunk m' = stack_chunk m /\
  stack_chunk_index m' = stack_chunk_index m /\
  update_map m' = update_map m /\
  process_frames m' = process_frames m /\
  walk_cont m' = walk_cont m.
Proof.
  intros H. apply set_location_inv, record_location_inv in H as [Hr ->].
  split; [|repeat split].
  intros r' Hr' Hne.
  assert (_location (with_location m r addr) !! Z.to_nat (value r')
          = _location m !! Z.to_nat (value r')) as Hloc
    by (apply with_location_lookup_other; lia).
  assert (location_valid_bit (with_location m r addr) r'
          = location_valid_bit m r') as Hbit
    by (apply with_location_bit_other; lia).
  split; [assumption|].
  split; [assumption|].
  split.
  - unfold trusted_location, array_get. rewrite Hloc. reflexivity.
  - intros fp Hsame. apply location_ext; [lia | assumption | |].
    + apply with_location_word_other; lia.
    + rewrite Hbit. destruct Hsame as [Hset|Hpd]; [congruence | auto].
Qed.

(** ** Clearing *)

Lemma clear_bit (m : RegisterMap) (r : VMReg) :
  location_valid_bit (clear m) r = false.
Proof.
  unfold location_valid_bit, clear. simpl. rewrite list_lookup_fmap.
  destruct (_location_valid m !! _); simpl; apply Z.bits_0.
Qed.

Lemma clear_well_sized (m : RegisterMap) :
  well_sized m -> well_sized (clear m).
Proof.
  intros [Hloc Hval]. split; simpl; [|rewrite length_fmap]; assumption.
Qed.

(** C5: after [clear()] the validity bit of every register is false and
    every later [location(r, fp)] is the platform's [pd_location(r)] on
    the cleared map, also for a register that [set_location] had recorded
    before. *)
Theorem clear_then_lookup (m : RegisterMap) :
  well_sized m ->
  (forall r, location_valid_bit (clear m) r = false) /\
  (forall r fp, 0 <= value r < reg_count ->
     location (clear m) r fp = Ok (pd_location (clear m) r)) /\
  (forall r addr m1 fp, 0 <= value r < reg_count ->
     set_location m r addr = Ok m1 ->
     location (clear m1) r fp = Ok (pd_location (clear m1) r)).
Proof.
  intros Hm. split; [apply clear_bit|]. split.
  - intros r fp Hr.
    rewrite location_in_range by (auto using clear_well_sized).
    rewrite clear_bit. reflexivity.
  - intros r addr m1 fp Hr H.
    apply set_location_inv, record_location_inv in H as [_ ->].
    rewrite location_in_range
      by (auto using clear_well_sized, with_location_well_sized).
    rewrite clear_bit. reflexivity.
Qed.

(** ** Cross-validation *)

Lemma verify_loop_product (m other : RegisterMap) (n : nat) (i : Z) :
  ASSERT = false -> verify_loop m other n i = Ok tt.
Proof.
  intros Hp. revert i. induction n as [|n IH]; intros i; simpl.
  - reflexivity.
  - rewrite vmassert_product by assumption. simpl. apply IH.
Qed.

(** In a debug build the loop returns when the tables agree on the indices
    it visits and stops at an assertion when they do not. *)
Lemma verify_loop_debug (m other : RegisterMap) (n : nat) (i : Z) :
  ASSERT = true -> 0 <= i ->
  i + Z.of_nat n <= Z.of_nat (length (_location m)) ->
  i + Z.of_nat n <= Z.of_nat (length (_location other)) ->
  (verify_loop m other n i = Ok tt /\
   forall j, i <= j < i + Z.of_nat n ->
     _location m !! Z.to_nat j = _location other !! Z.to_nat j)
  \/
  (is_fatal (verify_loop m other n i) /\
   exists j, i <= j < i + Z.of_nat n /\
     _location m !! Z.to_nat j <> _location other !! Z.to_nat j).
Proof.
  intros Hd. revert i. induction n as [|n IH]; intros i Hi Hm Ho.
  - left. split; [reflexivity | intros j Hj; lia].
  - cbn [verify_loop].
    destruct (lookup_lt_is_Some_2 (_location m) (Z.to_nat i)) as [a Ha]; [lia|].
    destruct (lookup_lt_is_Some_2 (_location other) (Z.to_nat i)) as [b Hb]; [lia|].
    rewrite (array_get_lookup _ _ _ Hi Ha), (array_get_lookup _ _ _ Hi Hb).
    cbn [bind]. destruct (Z.eqb_spec a b) as [->|Hab].
    + rewrite vmassert_holds. cbn [bind].
      destruct (IH (i + 1)) as [[Hok Hag]|[Hf (j & Hj & Hne)]]; try lia.
      * left. split; [assumption|]. intros j Hj.
        destruct (Z.eq_dec j i) as [->|Hji]; [congruence | apply Hag; lia].
      * right. split; [assumption|]. exists j. split; [lia | assumption].
    + rewrite vmassert_debug_false by assumption. cbn [bind].
      right. split; [eexists; reflexivity|].
      exists i. split; [lia | congruence].
Qed.

(** C6, as the code has it: in a debug build [verify(other)] compares the
    two raw location tables at every index in [0, reg_count); it returns
    when they agree everywhere and stops at an assertion on any mismatch.
    In a product build the assertion is compiled out and [verify] returns
    without reporting.  It yields no map: neither table is changed and no
    value is picked. *)
Theorem verify_compares_tables (m other : RegisterMap) :
  well_sized m -> well_sized other ->
  (ASSERT = true ->
     (tables_agree m other -> verify m other = Ok tt) /\
     (~ tables_agree m other -> is_fatal (verify m other))) /\
  (ASSERT = false -> verify m other = Ok tt).
Proof.
  intros [Hm _] [Ho _]. split; [|intros Hp; apply verify_loop_product, Hp].
  intros Hd. unfold verify, tables_agree.
  destruct (verify_loop_debug m other (Z.to_nat reg_count) 0 Hd)
    as [[Hok Hag]|[Hf (j & Hj & Hne)]]; try lia.
  - split; [intros _; assumption|].
    intros Hna. exfalso. apply Hna. intros i Hi. apply Hag. lia.
  - split; [|intros _; assumption].
    intros Hag. exfalso. apply Hne, Hag. lia.
Qed.

(** ** Chunk linkage *)

Lemma set_stack_chunk_in_range (m : RegisterMap) (chunk : stackChunkOop) :
  stack_chunk_index m < max_jint ->
  set_stack_chunk m chunk
  = Ok (with_chunk m chunk (stack_chunk_index m + 1)).
Proof.
  unfold set_stack_chunk, int_increment, stack_chunk_index. intros H.
  destruct (Z.ltb_spec (_chunk_index m) max_jint); [reflexivity | lia].
Qed.

Lemma set_stack_chunk_inv (m m' : RegisterMap) (chunk : stackChunkOop) :
  set_stack_chunk m chunk = Ok m' ->
  m' = with_chunk m chunk (stack_chunk_index m + 1).
Proof.
  unfold set_stack_chunk, int_increment, stack_chunk_index.
  destruct (_chunk_index m <? max_jint); simpl; [|discriminate].
  intros [= <-]. reflexivity.
Qed.

(** Every successful call adds one to the index. *)
Lemma set_stack_chunks_index (chunks : list stackChunkOop) (m m' : RegisterMap) :
  set_stack_chunks m chunks = Ok m' ->
  stack_chunk_index m' = stack_chunk_index m + Z.of_nat (length chunks).
Proof.
  revert m. induction chunks as [|c rest IH]; intros m; simpl.
  - intros [= <-]. lia.
  - intros H. apply bind_Ok_inv in H as (m1 & H1 & H).
    apply set_stack_chunk_inv in H1 as ->.
    apply IH in H. rewrite H. unfold stack_chunk_index. simpl. lia.
Qed.

(** C7: a [set_stack_chunk(chunk)] call attaches the new handle and adds
    one to the chunk index (below [max_jint], where the increment of the
    [int] is defined), so [stack_chunk_index()] is strictly larger after
    the call, and after any further successive calls. *)
Theorem set_stack_chunk_increments (m : RegisterMap) (chunk : stackChunkOop) :
  stack_chunk_index m < max_jint ->
  (exists m',
     set_stack_chunk m chunk = Ok m' /\
     stack_chunk m' = chunk /\
     stack_chunk_index m' = stack_chunk_index m + 1 /\
     stack_chunk_index m < stack_chunk_index m') /\
  (forall rest m2,
     set_stack_chunks m (chunk :: rest) = Ok m2 ->
     stack_chunk_index m < stack_chunk_index m2).
Proof.
  intros Hlt. split.
  - exists (with_chunk m chunk (stack_chunk_index m + 1)).
    split; [apply set_stack_chunk_in_range, Hlt|].
    unfold stack_chunk, stack_chunk_index. simpl. repeat split. lia.
  - intros rest m2 H. apply set_stack_chunks_index in H.
    rewrite H. simpl length. lia.
Qed.

(** C10: [set_stack_chunk_index(i)] makes [stack_chunk_index()] exactly
    [i] for any [i] and leaves the chunk handle alone; with an [i] below
    the current index the index goes down, so the class does not keep the
    index increasing. *)
Theorem set_stack_chunk_index_exact :
  (forall m i,
     stack_chunk_index (set_stack_chunk_index m i) = i /\
     stack_chunk (set_stack_chunk_index m i) = stack_chunk m) /\
  (forall m i,
     i < stack_chunk_index m ->
     stack_chunk_index (set_stack_chunk_index m i) < stack_chunk_index m).
Proof.
  split; intros m i; [split; reflexivity|].
  intros Hi. exact Hi.
Qed.

(** ** The size of the bitset and the range checks *)

(** X1: the validity bitset has exactly the words the registers need:
    [location_valid_size] words of 64 bits cover [reg_count] registers and
    one word fewer would not, so the word index of every register in range
    passes the second range check of [location] and [set_location]. *)
Theorem location_valid_size_covers :
  0 <= reg_count ->
  location_valid_type_size * (location_valid_size - 1) < reg_count
    <= location_valid_type_size * location_valid_size /\
  (forall r, 0 <= value r < reg_count ->
     0 <= value r ÷ location_valid_type_size < location_valid_size).
Proof.
  intros Hn. split.
  - unfold location_valid_size.
    rewrite Z.quot_div_nonneg by (change location_valid_type_size with 64; lia).
    change location_valid_type_size with 64.
    clear ASSERT PRODUCT pd_location pd_location_slot check_location_valid_debug.
    Z.div_mod_to_equations. lia.
  - intros r Hr. rewrite reg_quot by lia. apply reg_index_range, Hr.
Qed.

Lemma vmassert_debug_inv (b : bool) (msg : string) (u : unit) :
  ASSERT = true -> vmassert (Ok b) msg = Ok u -> b = true.
Proof.
  unfold vmassert. intros ->. simpl. destruct b; [reflexivity | discriminate].
Qed.

Lemma range_check_fails (x lo hi : Z) :
  ~ (lo <= x < hi) -> (lo <=? x) && (x <? hi) = false.
Proof.
  intros H. apply andb_false_iff.
  destruct (Z.leb_spec lo x); [|left; reflexivity].
  right. apply Z.ltb_ge. lia.
Qed.

(** X2: in a debug build a lookup never runs into undefined behaviour:
    for a register in [0, reg_count) it returns an address, and for any
    other ordinal it stops at the first range check. *)
Theorem location_debug_range_check (m : RegisterMap) (r : VMReg) (fp : Z) :
  ASSERT = true -> well_sized m ->
  (0 <= value r < reg_count -> exists a, location m r fp = Ok a) /\
  (~ (0 <= value r < reg_count) ->
     location m r fp = AssertFailed "range check").
Proof.
  intros Hd Hm. split.
  - intros Hr. rewrite location_in_range by assumption.
    destruct (location_valid_bit m r); [|eauto].
    destruct Hm as [Hloc _]. unfold trusted_location.
    rewrite array_get_in_range by lia. eauto.
  - intros Hr. unfold location.
    rewrite range_check_fails by assumption.
    rewrite vmassert_debug_false by assumption. reflexivity.
Qed.

(** [set_location] returns exactly when its three assertions, its stores
    and the closing check all go through. *)
Lemma set_location_Ok_iff (m m' : RegisterMap) (reg : VMReg) (loc : address) :
  set_location m reg loc = Ok m' <->
  vmassert (Ok ((0 <=? value reg) && (value reg <? reg_count))) "range check"
    = Ok tt /\
  vmassert (Ok ((0 <=? value reg ÷ location_valid_type_size)
                && (value reg ÷ location_valid_type_size <? location_valid_size)))
    "range check" = Ok tt /\
  vmassert (Ok (_update_map m)) "updating map that does not need updating"
    = Ok tt /\
  record_location m reg loc = Ok m' /\
  check_location_valid m' = Ok tt.
Proof.
  unfold set_location. split.
  - intros H.
    apply bind_Ok_inv in H as ([] & H1 & H).
    apply bind_Ok_inv in H as ([] & H2 & H).
    apply bind_Ok_inv in H as ([] & H3 & H).
    apply bind_Ok_inv in H as (m1 & H4 & H).
    apply bind_Ok_inv in H as ([] & H5 & H).
    injection H as <-. auto.
  - intros (H1 & H2 & H3 & H4 & H5).
    rewrite H1, H2, H3. simpl. rewrite H4. simpl. rewrite H5. reflexivity.
Qed.

(** X3: in a debug build [set_location(r, addr)] returns exactly when the
    register is in range, updating is enabled and the build's
    [check_location_valid] passes on the updated map; the map it returns is
    then the one with [addr] stored and the register's bit set. *)
Theorem set_location_debug_succeeds_iff
    (m m' : RegisterMap) (r : VMReg) (addr : address) :
  ASSERT = true -> well_sized m ->
  set_location m r addr = Ok m' <->
  (0 <= value r < reg_count /\
   update_map m = true /\
   check_location_valid_debug (with_location m r addr) = true /\
   m' = with_location m r addr).
Proof.
  intros Hd Hm. rewrite set_location_Ok_iff. unfold update_map. split.
  - intros (H1 & _ & H3 & H4 & H5).
    apply (vmassert_debug_inv _ _ _ Hd) in H1, H3.
    apply andb_true_iff in H1 as [Hlo Hhi].
    apply Z.leb_le in Hlo. apply Z.ltb_lt in Hhi.
    apply record_location_inv in H4 as [_ ->].
    repeat split; try assumption.
    unfold check_location_valid in H5. rewrite Hd in H5.
    destruct (check_location_valid_debug _); [reflexivity | discriminate].
  - intros (Hr & Hupd & Hchk & ->).
    pose proof (reg_index_range _ Hr) as Hidx.
    rewrite reg_quot by lia.
    rewrite !range_check_holds, Hupd, !vmassert_holds by assumption.
    repeat split.
    + apply record_location_in_range; assumption.
    + unfold check_location_valid. rewrite Hd, Hchk. reflexivity.
Qed.

(** X4: in a product build nothing guards the register ordinal:
    [set_location] with an ordinal outside [0, reg_count) writes outside
    the table, and a lookup of a negative ordinal reads outside the bitset
    or shifts by a negative count, when its word index fits an [int] or it
    is no multiple of 64; both are undefined behaviour. *)
Theorem product_build_out_of_range (m : RegisterMap) (r : VMReg) :
  ASSERT = false -> well_sized m ->
  (~ (0 <= value r < reg_count) ->
     forall addr, set_location m r addr = Undefined) /\
  (value r < 0 ->
     min_jint * location_valid_type_size <= value r
     \/ Z.rem (value r) location_valid_type_size <> 0 ->
     forall fp, location m r fp = Undefined).
Proof.
  intros Hp [Hloc Hval]. split.
  - intros Hr addr. unfold set_location.
    rewrite !vmassert_product by assumption. simpl.
    unfold record_location, array_set.
    destruct (Z.leb_spec 0 (value r)); simpl; [|reflexivity].
    destruct (Z.ltb_spec (value r) (Z.of_nat (length (_location m))));
      [lia | reflexivity].
  - intros Hr _ fp. unfold location.
    rewrite !vmassert_product by assumption. simpl.
    unfold array_get.
    destruct (Z.leb_spec 0 (value r ÷ location_valid_type_size)); [|reflexivity].
    assert (Z.rem (value r) location_valid_type_size < 0) as Hrem.
    { revert Hr H. change location_valid_type_size with 64.
      generalize (value r).
      clear. intros z Hz Hq. Z.to_euclidean_division_equations. lia. }
    assert (shl_one (Z.rem (value r) location_valid_type_size) = Undefined) as ->.
    { unfold shl_one.
      destruct (Z.leb_spec 0 (Z.rem (value r) location_valid_type_size));
        [lia | reflexivity]. }
    destruct (_location_valid m !! _); reflexivity.
Qed.

(** X5: [trusted_location] checks nothing, in any build: for a register in
    [0, reg_count) it returns the raw table entry whatever the validity
    bits say, and for any other ordinal it reads outside the table, which
    no assertion catches. *)
Theorem trusted_location_unchecked (m : RegisterMap) (r : VMReg) :
  well_sized m ->
  (0 <= value r < reg_count ->
     forall valid,
       exists a, _location m !! Z.to_nat (value r) = Some a /\
                 trusted_location (with_tables m (_location m) valid) r = Ok a) /\
  (~ (0 <= value r < reg_count) -> trusted_location m r = Undefined).
Proof.
  intros [Hloc _]. split.
  - intros Hr valid.
    destruct (lookup_lt_is_Some_2 (_location m) (Z.to_nat (value r))) as [a Ha];
      [lia|].
    exists a. split; [assumption|].
    apply array_get_lookup; [lia | exact Ha].
  - intros Hr. unfold trusted_location, array_get.
    destruct (Z.leb_spec 0 (value r)); [|reflexivity].
    rewrite lookup_ge_None_2 by lia. reflexivity.
Qed.

(** ** What an update keeps *)

(** The stores of [set_location] go through exactly when the table entry
    and the validity word of the register exist. *)
Lemma record_location_Ok_iff (m m' : RegisterMap) (reg : VMReg) (loc : address) :
  record_location m reg loc = Ok m' <->
  (0 <= value reg < Z.of_nat (length (_location m)) /\
   value reg / location_valid_type_size < Z.of_nat (length (_location_valid m)) /\
   m' = with_location m reg loc).
Proof.
  split.
  - intros H. pose proof (record_location_inv _ _ _ _ H) as [Hr ->].
    split; [assumption|]. split; [|reflexivity].
    unfold record_location in H.
    apply bind_Ok_inv in H as (locs & _ & H).
    apply bind_Ok_inv in H as (w & Hw & _).
    rewrite reg_quot in Hw by lia.
    apply array_get_inv in Hw as [Hq Hw].
    apply lookup_lt_Some in Hw. lia.
  - intros (Hr & Hidx & ->).
    assert (0 <= value reg / location_valid_type_size) as Hq
      by (apply Z.div_pos; [lia | reflexivity]).
    unfold record_location, with_location.
    rewrite reg_quot, reg_rem by lia.
    rewrite array_set_in_range by lia. simpl.
    rewrite array_get_in_range by lia. simpl.
    rewrite shl_one_in_range by apply reg_bit_range. simpl.
    rewrite array_set_in_range by lia. reflexivity.
Qed.

(** No update clears a bit. *)
Lemma with_location_bit_mono (m : RegisterMap) (reg reg' : VMReg) (loc : address) :
  location_valid_bit m reg' = true ->
  location_valid_bit (with_location m reg loc) reg' = true.
Proof.
  unfold location_valid_bit. simpl. intros H.
  rewrite list_lookup_insert. case_decide as Hd; [|assumption].
  destruct Hd as [Heq _]. rewrite Heq. simpl.
  rewrite Z.lor_spec, H. reflexivity.
Qed.

(** X6: whenever [set_location] returns, the two arrays have kept their
    sizes, every validity word still fits its 64 bits, the register's own
    bit is set and no bit that was set has been cleared: an update never
    invalidates what an earlier one recorded. *)
Theorem set_location_keeps_invariants
    (m m' : RegisterMap) (r : VMReg) (addr : address) :
  set_location m r addr = Ok m' ->
  (well_sized m -> well_sized m') /\
  (julong_words m -> julong_words m') /\
  location_valid_bit m' r = true /\
  (forall r', location_valid_bit m r' = true -> location_valid_bit m' r' = true).
Proof.
  intros H. apply set_location_inv, record_location_Ok_iff in H
    as (Hr & Hidx & ->).
  split; [apply with_location_well_sized|].
  split; [apply with_location_julong_words|].
  split; [|intros r'; apply with_location_bit_mono].
  apply with_location_bit_same. split; [|assumption].
  apply Z.div_pos; [lia | reflexivity].
Qed.

(** ** Sequences of updates *)

Lemma set_location_in_range (m : RegisterMap) (reg : VMReg) (loc : address) :
  well_sized m -> 0 <= value reg < reg_count -> _update_map m = true ->
  check_location_valid (with_location m reg loc) = Ok tt ->
  set_location m reg loc = Ok (with_location m reg loc).
Proof.
  intros Hm Hr Hupd Hchk.
  pose proof (reg_index_range _ Hr) as Hidx.
  apply set_location_Ok_iff. rewrite reg_quot by lia.
  rewrite !range_check_holds, Hupd, !vmassert_holds by assumption.
  repeat split; [|assumption].
  apply record_location_in_range; assumption.
Qed.

(** What a sequence of updates that went through has recorded. *)
Lemma set_locations_content (updates : list (VMReg * address)) (m m' : RegisterMap) :
  well_sized m -> set_locations m updates = Ok m' ->
  well_sized m' /\
  forall r, 0 <= value r < reg_count ->
    location_valid_bit m' r =
      match last_write r updates with
      | Some _ => true
      | None => location_valid_bit m r
      end /\
    _location m' !! Z.to_nat (value r) =
      match last_write r updates with
      | Some a => Some a
      | None => _location m !! Z.to_nat (value r)
      end.
Proof.
  revert m. induction updates as [|[r0 a0] rest IH]; intros m Hm H.
  - injection H as <-. split; [assumption|]. intros r _. split; reflexivity.
  - cbn [set_locations] in H. apply bind_Ok_inv in H as (m1 & H1 & H).
    apply set_location_inv, record_location_inv in H1 as [Hr0 ->].
    destruct (IH _ (with_location_well_sized _ r0 a0 Hm) H) as [Hm' Hrec].
    split; [assumption|]. intros r Hr.
    destruct (Hrec r Hr) as [Hbit Hent]. rewrite Hbit, Hent.
    cbn [last_write].
    destruct (last_write r rest); [split; reflexivity|].
    pose proof Hm as [Hloc Hval].
    destruct (Z.eqb_spec (value r0) (value r)) as [Heq|Hne].
    + unfold value in Heq. subst r0.
      pose proof (reg_index_range _ Hr) as Hidx. split.
      * apply with_location_bit_same. lia.
      * apply with_location_lookup_same. lia.
    + split.
      * apply with_location_bit_other; lia.
      * apply with_location_lookup_other; lia.
Qed.

(** X7: a sequence of [set_location] calls with registers in range, on a
    map with updating enabled (and, in a debug build, with
    [check_location_valid] passing), goes through, and afterwards the
    lookup of a register is the address its last update wrote; for a
    register no update named it is the lookup from before the sequence if
    the register's bit was set, and the answer of [pd_location] on the
    updated map if not. *)
Theorem set_locations_last_write_wins
    (m : RegisterMap) (updates : list (VMReg * address)) :
  well_sized m -> update_map m = true ->
  Forall (fun u => 0 <= value (fst u) < reg_count) updates ->
  (forall m0, check_location_valid m0 = Ok tt) ->
  exists m',
    set_locations m updates = Ok m' /\
    forall r fp, 0 <= value r < reg_count ->
      location m' r fp =
        match last_write r updates with
        | Some a => Ok a
        | None =>
            if location_valid_bit m r then location m r fp
            else Ok (pd_location m' r)
        end.
Proof.
  intros Hm Hupd Hall Hchk.
  assert (exists m', set_locations m updates = Ok m') as [m' H].
  { clear - Hm Hupd Hall Hchk. revert m Hm Hupd.
    induction Hall as [|[r0 a0] rest Hr0 _ IH]; intros m Hm Hupd.
    - exists m. reflexivity.
    - cbn [set_locations].
      rewrite (set_location_in_range m r0 a0 Hm Hr0 Hupd (Hchk _)). simpl.
      apply IH; [apply with_location_well_sized, Hm | exact Hupd]. }
  exists m'. split; [assumption|].
  destruct (set_locations_content updates m m' Hm H) as [Hm' Hrec].
  intros r fp Hr. destruct (Hrec r Hr) as [Hbit Hent].
  rewrite (location_in_range m' r fp Hm' Hr), Hbit.
  unfold trusted_location, array_get. rewrite Hent.
  destruct (last_write r updates) as [a|].
  - destruct (Z.leb_spec 0 (value r)); [reflexivity | lia].
  - destruct (location_valid_bit m r) eqn:Hb; [|reflexivity].
    rewrite (location_in_range m r fp Hm Hr), Hb. reflexivity.
Qed.

(** ** Updates as writes to a finite map *)

Lemma with_tables_eq (m : RegisterMap) (l1 l2 l v1 v2 v : list Z) :
  l2 = l -> v2 = v ->
  with_tables (with_tables m l1 v1) l2 v2 = with_tables m l v.
Proof. intros -> ->. reflexivity. Qed.

Lemma with_location_overwrite (m : RegisterMap) (reg : VMReg) (a b : address) :
  with_location (with_location m reg a) reg b = with_location m reg b.
Proof.
  unfold with_location. simpl. apply with_tables_eq.
  - apply list_insert_insert_eq.
  - rewrite list_insert_insert_eq. f_equal.
    rewrite list_lookup_insert. case_decide as Hd.
    + simpl. rewrite <- Z.lor_assoc, Z.lor_diag. reflexivity.
    + reflexivity.
Qed.

Lemma with_location_commute (m : RegisterMap) (reg reg' : VMReg) (a b : address) :
  0 <= value reg -> 0 <= value reg' -> value reg' <> value reg ->
  with_location (with_location m reg a) reg' b
  = with_location (with_location m reg' b) reg a.
Proof.
  intros Hr Hr' Hne. unfold with_location. simpl.
  rewrite (with_tables_eq m _ _ _ _ _ _ eq_refl eq_refl). symmetry.
  apply with_tables_eq.
  - apply list_insert_insert_ne. reg_lia.
  - set (i := Z.to_nat (value reg / location_valid_type_size)).
    set (j := Z.to_nat (value reg' / location_valid_type_size)).
    set (bi := Z.shiftl 1 (value reg mod location_valid_type_size)).
    set (bj := Z.shiftl 1 (value reg' mod location_valid_type_size)).
    destruct (decide (i = j)) as [Heq|Hij].
    + rewrite <- Heq. rewrite !list_insert_insert_eq.
      rewrite !list_lookup_insert.
      destruct (decide (i < length (_location_valid m))%nat) as [Hlt|Hge].
      * rewrite !decide_True by (split; [reflexivity | assumption]). simpl.
        f_equal. rewrite <- !Z.lor_assoc. f_equal. apply Z.lor_comm.
      * rewrite !list_insert_ge by lia. reflexivity.
    + rewrite !list_lookup_insert_ne by congruence.
      apply list_insert_insert_ne. congruence.
Qed.

(** X8: [set_location] calls compose like writes to a finite map.  Two
    updates of one register leave the map a single update with the later
    address leaves; two updates of different registers give the same map
    in either order (in a debug build, provided [check_location_valid]
    also passes on the map in between). *)
Theorem set_location_overwrite_and_commute
    (m m1 m2 : RegisterMap) (r r' : VMReg) (a b : address) :
  set_location m r a = Ok m1 -> set_location m1 r' b = Ok m2 ->
  (value r' = value r -> set_location m r b = Ok m2) /\
  (value r' <> value r ->
     check_location_valid (with_location m r' b) = Ok tt ->
     set_location m r' b = Ok (with_location m r' b) /\
     set_location (with_location m r' b) r a = Ok m2).
Proof.
  intros H1 H2.
  apply set_location_Ok_iff in H1 as (A1 & A2 & A3 & R1 & C1).
  apply set_location_Ok_iff in H2 as (B1 & B2 & B3 & R2 & C2).
  apply record_location_Ok_iff in R1 as (Hr & Hidx & ->).
  apply record_location_Ok_iff in R2 as (Hr' & Hidx' & ->).
  simpl in Hr', Hidx', B3. rewrite length_insert in Hr', Hidx'.
  split.
  - unfold value. intros ->.
    rewrite with_location_overwrite in C2 |- *.
    apply set_location_Ok_iff. repeat split; try assumption.
    apply record_location_Ok_iff. auto.
  - intros Hne Hchk.
    rewrite with_location_commute in C2 |- * by lia.
    split; apply set_location_Ok_iff; repeat split; try assumption.
    + apply record_location_Ok_iff. auto.
    + apply record_location_Ok_iff. simpl. rewrite !length_insert. auto.
Qed.

(** ** More on cross-validation *)

Lemma verify_loop_same_tables (m other : RegisterMap) (n : nat) (i : Z) :
  _location other = _location m -> 0 <= i ->
  i + Z.of_nat n <= Z.of_nat (length (_location m)) ->
  verify_loop m other n i = Ok tt.
Proof.
  intros Heq. revert i. induction n as [|n IH]; intros i Hi Hlen.
  - reflexivity.
  - cbn [verify_loop]. rewrite Heq.
    rewrite array_get_in_range by lia. cbn [bind].
    rewrite Z.eqb_refl, vmassert_holds. cbn [bind].
    apply IH; lia.
Qed.

Lemma verify_debug_Ok_iff (m other : RegisterMap) :
  ASSERT = true -> well_sized m -> well_sized other ->
  (verify m other = Ok tt <-> tables_agree m other) /\
  (~ tables_agree m other -> is_fatal (verify m other)).
Proof.
  intros Hd [Hm _] [Ho _]. unfold verify, tables_agree.
  destruct (verify_loop_debug m other (Z.to_nat reg_count) 0 Hd)
    as [[Hok Hag]|[[msg Hf] (j & Hj & Hne)]]; try lia.
  - split; [split; [intros _ i Hi; apply Hag; lia | intros _; assumption]|].
    intros Hna. exfalso. apply Hna. intros i Hi. apply Hag. lia.
  - split; [|intros _; exists msg; assumption].
    split; [rewrite Hf; discriminate|].
    intros Hag. exfalso. apply Hne, Hag. lia.
Qed.

(** X9: [verify] never reads the validity bits: a map and the same map
    with any other bitset pass it, in every build, also when the bitset
    is all zero and every lookup of a recorded register has turned into the
    platform fallback. *)
Theorem verify_ignores_validity (m : RegisterMap) (valid : list Z) :
  well_sized m ->
  verify m (with_tables m (_location m) valid) = Ok tt /\
  verify (with_tables m (_location m) valid) m = Ok tt.
Proof.
  intros [Hm _]. unfold verify.
  split; apply verify_loop_same_tables; simpl; try reflexivity; lia.
Qed.

(** X10: [verify] is stricter than agreement of the lookups: writing a
    different address into the table entry of a register whose bit is
    clear changes no lookup of a register in range (the platform resolver
    reading the map through what it has recorded), and yet a debug build
    stops [verify] of the two maps at its assertion. *)
Theorem verify_sees_stale_entries (m : RegisterMap) (r : VMReg) (a : address) :
  ASSERT = true -> well_sized m -> 0 <= value r < reg_count ->
  location_valid_bit m r = false ->
  _location m !! Z.to_nat (value r) <> Some a ->
  (reads_recorded_only pd_location ->
   forall r' fp, 0 <= value r' < reg_count ->
     location (with_entry m r a) r' fp = location m r' fp) /\
  is_fatal (verify m (with_entry m r a)).
Proof.
  intros Hd Hm Hr Hbit Hne.
  assert (well_sized (with_entry m r a)) as Hm2.
  { destruct Hm as [Hl Hv]. split; simpl; [rewrite length_insert|]; assumption. }
  split.
  - intros Hpd r' fp Hr'. rewrite !location_in_range by assumption.
    change (location_valid_bit (with_entry m r a) r')
      with (location_valid_bit m r').
    destruct (location_valid_bit m r') eqn:Hb.
    + assert (value r' <> value r) as Hrr by (unfold value; congruence).
      unfold trusted_location, array_get. simpl.
      rewrite list_lookup_insert_ne by reg_lia. reflexivity.
    + f_equal. apply Hpd; [reflexivity|].
      intros reg Hreg Hset. simpl.
      apply list_lookup_insert_ne.
      change (location_valid_bit (with_entry m r a) reg)
        with (location_valid_bit m reg) in Hset.
      assert (reg <> r) by congruence. reg_lia.
  - apply (verify_debug_Ok_iff m (with_entry m r a) Hd Hm Hm2).
    intros Hag. specialize (Hag (value r) Hr). simpl in Hag.
    destruct Hm as [Hl _].
    rewrite list_lookup_insert_eq in Hag by lia. contradiction.
Qed.

Lemma tables_agree_sym (m other : RegisterMap) :
  tables_agree m other -> tables_agree other m.
Proof. intros H i Hi. symmetry. apply H, Hi. Qed.

(** X11: in a debug build [verify] is an equivalence on maps of the
    declared sizes: a map passes against itself, against [other] exactly
    when [other] passes against it, and passing carries over from
    [m] / [other] and [other] / [third] to [m] / [third]. *)
Theorem verify_equivalence (m other third : RegisterMap) :
  ASSERT = true -> well_sized m -> well_sized other -> well_sized third ->
  verify m m = Ok tt /\
  (verify m other = Ok tt <-> verify other m = Ok tt) /\
  (verify m other = Ok tt -> verify other third = Ok tt ->
     verify m third = Ok tt).
Proof.
  intros Hd Hm Ho Ht.
  pose proof (verify_debug_Ok_iff m m Hd Hm Hm) as [Hmm _].
  pose proof (verify_debug_Ok_iff m other Hd Hm Ho) as [Hmo _].
  pose proof (verify_debug_Ok_iff other m Hd Ho Hm) as [Hom _].
  pose proof (verify_debug_Ok_iff other third Hd Ho Ht) as [Hot _].
  pose proof (verify_debug_Ok_iff m third Hd Hm Ht) as [Hmt _].
  split; [apply Hmm; intros i _; reflexivity|]. split.
  - rewrite Hmo, Hom. split; apply tables_agree_sym.
  - rewrite Hmo, Hot, Hmt. intros H1 H2 i Hi.
    rewrite (H1 i Hi). apply H2, Hi.
Qed.

(** X12: agreement survives equal updates and is lost by unequal ones:
    when two maps pass [verify] and both record the same address for a
    register, the updated maps pass it again; when they record different
    addresses, a debug build stops [verify] at its assertion. *)
Theorem verify_after_set_location
    (m other m' other' : RegisterMap) (r : VMReg) (a b : address) :
  well_sized m -> well_sized other ->
  set_location m r a = Ok m' -> set_location other r b = Ok other' ->
  (a = b -> verify m other = Ok tt -> verify m' other' = Ok tt) /\
  (a <> b -> ASSERT = true -> is_fatal (verify m' other')).
Proof.
  intros Hm Ho H1 H2.
  apply set_location_inv, record_location_inv in H1 as [Hr ->].
  apply set_location_inv, record_location_inv in H2 as [Hr2 ->].
  pose proof (with_location_well_sized m r a Hm) as Hm'.
  pose proof (with_location_well_sized other r b Ho) as Ho'.
  assert (0 <= value r < reg_count) as Hrange by (destruct Hm; lia).
  split.
  - intros <- Hv. destruct ASSERT eqn:Hd.
    + apply (verify_debug_Ok_iff _ _ Hd Hm' Ho').
      apply (verify_debug_Ok_iff _ _ Hd Hm Ho) in Hv.
      intros i Hi. simpl. rewrite !list_lookup_insert.
      destruct Hm as [Hlm _], Ho as [Hlo _].
      destruct (decide (Z.to_nat (value r) = Z.to_nat i)) as [Heq|Hne].
      * rewrite !decide_True by (split; [assumption | lia]). reflexivity.
      * rewrite !decide_False by (intros [? _]; contradiction). apply Hv, Hi.
    + unfold verify. apply verify_loop_product, Hd.
  - intros Hab Hd. apply (verify_debug_Ok_iff _ _ Hd Hm' Ho').
    intros Hag. specialize (Hag (value r) Hrange). simpl in Hag.
    rewrite !list_lookup_insert_eq in Hag by lia. congruence.
Qed.

(** ** Flag and index setters *)

(** X13: the setters of the header ([set_include_argument_oops],
    [set_walk_cont], [set_async], [set_skip_missing],
    [set_stack_chunk_index]) touch neither table: every lookup (the
    platform resolver reading the tables only), trusted lookup and
    [verify] gives what it gave before, and the fields fixed at
    construction ([update_map], [process_frames], [thread]) keep their
    values.  In a product build [set_async] and [set_skip_missing] change
    nothing at all. *)
Theorem setters_leave_locations (m m' : RegisterMap) :
  setter_step m m' ->
  (reads_tables_only pd_location ->
   forall r fp, location m' r fp = location m r fp) /\
  (forall r, trusted_location m' r = trusted_location m r) /\
  (forall other, verify m' other = verify m other
                 /\ verify other m' = verify other m) /\
  update_map m' = update_map m /\
  process_frames m' = process_frames m /\
  thread m' = thread m /\
  (PRODUCT = true ->
     forall v, set_async m v = m /\ set_skip_missing m v = m).
Proof.
  intros Hstep.
  assert (_location m' = _location m /\ _location_valid m' = _location_valid m
          /\ _update_map m' = _update_map m
          /\ _process_frames m' = _process_frames m
          /\ _thread m' = _thread m) as (Hl & Hv & Hu & Hp & Ht).
  { destruct Hstep; unfold set_async, set_skip_missing;
      try destruct PRODUCT; repeat split. }
  split.
  { intros Hpd r fp. unfold location.
    rewrite Hl, Hv, (Hpd m' m Hl Hv r). reflexivity. }
  split; [intros r; unfold trusted_location; rewrite Hl; reflexivity|].
  split.
  { intros other. unfold verify.
    generalize (Z.to_nat reg_count) 0.
    intros n. induction n as [|n IH]; intros i; [split; reflexivity|].
    cbn [verify_loop]. rewrite Hl.
    destruct (IH (i + 1)) as [-> ->]. split; reflexivity. }
  repeat split; try assumption;
    unfold set_async, set_skip_missing; rewrite H; reflexivity.
Qed.

(** ** Updates and the slot lookup *)

(** X14: recording a location for a register shows in its slot-0 lookup
    and is passed over by every sub-slot lookup: after
    [set_location(r, addr)] the lookup [location(r, 0)] is [addr], while
    [location(base_reg, slot_idx)] with [slot_idx > 0] is the answer of
    the platform's [pd_location(base_reg, slot_idx)] on the updated map,
    for [r] itself as for every other base register, whatever was
    recorded. *)
Theorem set_location_then_slot_lookup
    (m m' : RegisterMap) (r : VMReg) (addr : address) :
  well_sized m -> set_location m r addr = Ok m' ->
  location_slot m' r 0 = Ok addr /\
  (forall base_reg slot_idx, 0 < slot_idx ->
     location_slot m' base_reg slot_idx
     = Ok (pd_location_slot m' base_reg slot_idx)).
Proof.
  intros Hm H. apply set_location_inv, record_location_inv in H as [Hr ->].
  assert (0 <= value r < reg_count) as Hrange by (destruct Hm; lia).
  split.
  - unfold location_slot. simpl. apply location_with_location; assumption.
  - intros base_reg slot_idx Hs. unfold location_slot.
    destruct (Z.ltb_spec 0 slot_idx); [reflexivity | lia].
Qed.

End Shared.

(** ** The operations on sample maps *)

(** The scenario of four registers, in a debug build: register 2 recorded
    at 0x1000 is found there, register 0 falls back to the platform, and
    after [clear()] register 2 falls back as well. *)
Example scenario_four_registers :
  set_location 4 true check_passes (blank4 true) 2 4096 = Ok (recorded4 true) /\
  location 4 true pd_sample (recorded4 true) 2 64 = Ok 4096 /\
  location 4 true pd_sample (recorded4 true) 0 64
  = Ok (pd_sample (recorded4 true) 0) /\
  location 4 true pd_sample (clear (recorded4 true)) 2 64
  = Ok (pd_sample (clear (recorded4 true)) 2).
Proof. repeat split. Qed.

Lemma location_valid_or_fallback_witness :
  well_sized 4 (recorded4 true) /\
  0 <= value 2 < 4 /\
  location_valid_bit (recorded4 true) 0 = false /\
  location 4 true pd_sample (recorded4 true) 0 64
  = Ok (pd_sample (recorded4 true) 0) /\
  location_valid_bit (recorded4 true) 2 = true /\
  location 4 true pd_sample (recorded4 true) 2 64
  = trusted_location (recorded4 true) 2.
Proof.
  assert (well_sized 4 (recorded4 true)) as Hm by (split; reflexivity).
  split; [exact Hm|]. split; [unfold value; lia|].
  split; [reflexivity|]. split; [|split; [reflexivity|]].
  - destruct (location_valid_or_fallback 4 true pd_sample (recorded4 true) 0 64 Hm)
      as [H _]; [unfold value; lia|].
    apply H. reflexivity.
  - destruct (location_valid_or_fallback 4 true pd_sample (recorded4 true) 2 64 Hm)
      as [_ H]; [unfold value; lia|].
    destruct (H eq_refl) as [H1 _]. exact H1.
Defined.

(** The claim C2 fails in a product build: on the four-register map with
    updating disabled, [set_location(2, 0x1000)] returns normally, and
    [location(2, fp)], the platform fallback before the call, is the
    attempted write after it. *)
Lemma set_location_update_disabled_product_build :
  update_map (blank4 false) = false /\
  location 4 false pd_sample (blank4 false) 2 0
  = Ok (pd_sample (blank4 false) 2) /\
  set_location 4 false check_passes (blank4 false) 2 4096 = Ok (recorded4 false) /\
  location 4 false pd_sample (recorded4 false) 2 0 = Ok 4096 /\
  pd_sample (blank4 false) 2 <> 4096.
Proof. repeat split. discriminate. Qed.

Lemma set_location_update_disabled_witness :
  update_map (blank4 false) = false /\
  is_fatal (set_location 4 true check_passes (blank4 false) 2 4096).
Proof.
  split; [reflexivity|].
  destruct (set_location_update_disabled 4 true pd_sample check_passes
              (blank4 false) 2 4096 eq_refl) as [H _].
  apply H. reflexivity.
Defined.

Lemma set_location_then_lookup_witness :
  well_sized 4 (blank4 true) /\
  0 <= value 2 < 4 /\
  update_map (blank4 true) = true /\
  check_location_valid true check_passes (with_location (blank4 true) 2 4096)
  = Ok tt /\
  set_location 4 true check_passes (blank4 true) 2 4096 = Ok (recorded4 true) /\
  (forall fp, location 4 true pd_sample (recorded4 true) 2 fp = Ok 4096) /\
  trusted_location (recorded4 true) 2 = Ok 4096.
Proof.
  assert (well_sized 4 (blank4 true)) as Hm by (split; reflexivity).
  assert (0 <= value 2 < 4) as Hr by (unfold value; lia).
  split; [exact Hm|]. split; [exact Hr|].
  split; [reflexivity|]. split; [reflexivity|].
  destruct (set_location_then_lookup 4 true pd_sample check_passes
              (blank4 true) 2 4096 Hm Hr eq_refl) as [Hret Hafter].
  split; [exact (Hret eq_refl)|].
  exact (Hafter (recorded4 true) (Hret eq_refl)).
Defined.

(** The claim C8 fails for a platform whose [pd_location] reads the map:
    with the resolver that finds the upper half of a wide register 4 bytes
    above the location recorded for its lower half, [set_location(2,
    0x1000)] on the blank four-register map changes the lookup of
    register 3 from 0 to 0x1004. *)
Lemma set_location_moves_derived_lookup :
  set_location 4 true check_passes (blank4 true) 2 4096 = Ok (recorded4 true) /\
  location 4 true pd_upper_half (blank4 true) 3 0 = Ok 0 /\
  location 4 true pd_upper_half (recorded4 true) 3 0 = Ok 4100.
Proof. repeat split. Qed.

Lemma set_location_frame_witness :
  set_location 4 true check_passes (recorded4 true) 0 8192
  = Ok (with_location (recorded4 true) 0 8192) /\
  location_valid_bit (with_location (recorded4 true) 0 8192) 2
  = location_valid_bit (recorded4 true) 2 /\
  (* register 2 is recorded: its lookup stays *)
  (forall fp,
     location 4 true pd_upper_half (with_location (recorded4 true) 0 8192) 2 fp
     = location 4 true pd_upper_half (recorded4 true) 2 fp) /\
  (* register 3 is derived from register 2, which the update leaves alone *)
  (forall fp,
     location 4 true pd_upper_half (with_location (recorded4 true) 0 8192) 3 fp
     = location 4 true pd_upper_half (recorded4 true) 3 fp) /\
  update_map (with_location (recorded4 true) 0 8192)
  = update_map (recorded4 true).
Proof.
  assert (set_location 4 true check_passes (recorded4 true) 0 8192
          = Ok (with_location (recorded4 true) 0 8192)) as Hset by reflexivity.
  split; [exact Hset|].
  destruct (set_location_frame 4 true pd_upper_half check_passes
              (recorded4 true) (with_location (recorded4 true) 0 8192) 0 8192
              Hset)
    as (H & _ & _ & _ & _ & Hupd & _).
  destruct (H 2) as (_ & Hbit & _ & Hloc2);
    [unfold value; lia | unfold value; lia |].
  destruct (H 3) as (_ & _ & _ & Hloc3);
    [unfold value; lia | unfold value; lia |].
  split; [exact Hbit|].
  split; [intros fp; apply Hloc2; left; reflexivity|].
  split; [intros fp; apply Hloc3; right; reflexivity|].
  exact Hupd.
Defined.

Lemma clear_then_lookup_witness :
  well_sized 4 (recorded4 true) /\
  location_valid_bit (clear (recorded4 true)) 2 = false /\
  location 4 true pd_sample (clear (recorded4 true)) 2 64
  = Ok (pd_sample (clear (recorded4 true)) 2).
Proof.
  assert (well_sized 4 (recorded4 true)) as Hm by (split; reflexivity).
  split; [exact Hm|].
  destruct (clear_then_lookup 4 true pd_sample check_passes (recorded4 true) Hm)
    as (Hbit & Hloc & _).
  split; [apply Hbit | apply Hloc; unfold value; lia].
Defined.

(** The claim C6 fails in a product build: the two tables differ at
    register 2 and [verify] returns without a report. *)
Lemma verify_product_build_silent :
  _location (recorded4 true) !! 2%nat <> _location other4 !! 2%nat /\
  verify 4 false (recorded4 true) other4 = Ok tt.
Proof. split; [discriminate | reflexivity]. Qed.

Lemma verify_compares_tables_witness :
  well_sized 4 (recorded4 true) /\
  well_sized 4 other4 /\
  verify 4 true (recorded4 true) (recorded4 true) = Ok tt /\
  is_fatal (verify 4 true (recorded4 true) other4).
Proof.
  assert (well_sized 4 (recorded4 true)) as Hm by (split; reflexivity).
  assert (well_sized 4 other4) as Ho by (split; reflexivity).
  split; [exact Hm|]. split; [exact Ho|]. split.
  - destruct (verify_compares_tables 4 true (recorded4 true) (recorded4 true)
                Hm Hm) as [H _].
    destruct (H eq_refl) as [Hok _]. apply Hok. intros i _. reflexivity.
  - destruct (verify_compares_tables 4 true (recorded4 true) other4 Hm Ho)
      as [H _].
    destruct (H eq_refl) as [_ Hf]. apply Hf. intros Hag.
    specialize (Hag 2 ltac:(lia)). discriminate Hag.
Defined.

Lemma set_stack_chunk_increments_witness :
  stack_chunk_index (blank4 true) < max_jint /\
  exists m',
    set_stack_chunk (blank4 true) 7 = Ok m' /\
    stack_chunk m' = 7 /\
    stack_chunk_index m' = stack_chunk_index (blank4 true) + 1 /\
    stack_chunk_index (blank4 true) < stack_chunk_index m'.
Proof.
  assert (stack_chunk_index (blank4 true) < max_jint) as Hlt by reflexivity.
  split; [exact Hlt|].
  destruct (set_stack_chunk_increments (blank4 true) 7 Hlt) as [H _].
  exact H.
Defined.

Lemma location_slot_dispatch_witness :
  location_valid_bit (recorded4 true) 2 = true /\
  0 < 3 /\
  location_slot 4 true pd_sample pd_slot_sample (recorded4 true) 2 3
  = Ok (pd_slot_sample (recorded4 true) 2 3) /\
  location_slot 4 true pd_sample pd_slot_sample (recorded4 true) 2 0
  = location 4 true pd_sample (recorded4 true) 2 64.
Proof.
  split; [reflexivity|]. split; [lia|].
  destruct (location_slot_dispatch 4 true pd_sample pd_slot_sample
              (recorded4 true) 2 3) as [Hpos Hzero].
  split; [apply Hpos; lia | apply Hzero].
Defined.

Lemma location_slot_nonpositive_witness :
  -5 <= 0 /\
  location_slot 4 true pd_sample pd_slot_sample (recorded4 true) 2 (-5)
  = location 4 true pd_sample (recorded4 true) 2 nullptr.
Proof.
  split; [lia|].
  destruct (location_slot_nonpositive 4 true pd_sample pd_slot_sample
              (recorded4 true) 2 (-5)) as [H _].
  apply H. lia.
Defined.

Lemma set_stack_chunk_index_exact_witness :
  1 < stack_chunk_index (set_stack_chunk_index (blank4 true) 5) /\
  stack_chunk_index
    (set_stack_chunk_index (set_stack_chunk_index (blank4 true) 5) 1)
  < stack_chunk_index (set_stack_chunk_index (blank4 true) 5).
Proof.
  assert (1 < stack_chunk_index (set_stack_chunk_index (blank4 true) 5))
    as Hlt by reflexivity.
  split; [exact Hlt|].
  destruct set_stack_chunk_index_exact as [_ H].
  apply H. exact Hlt.
Defined.

(** ** The further properties on sample maps *)

Lemma location_valid_size_covers_witness :
  0 <= 70 /\
  location_valid_type_size * (location_valid_size 70 - 1) < 70
    <= location_valid_type_size * location_valid_size 70.
Proof.
  assert (0 <= 70) as Hn by lia.
  split; [exact Hn|].
  destruct (location_valid_size_covers 70 Hn) as [H _]. exact H.
Defined.

Lemma location_debug_range_check_witness :
  well_sized 4 (recorded4 true) /\
  (exists a, location 4 true pd_sample (recorded4 true) 2 64 = Ok a) /\
  location 4 true pd_sample (recorded4 true) 9 64 = AssertFailed "range check".
Proof.
  assert (well_sized 4 (recorded4 true)) as Hm by (split; reflexivity).
  split; [exact Hm|]. split.
  - destruct (location_debug_range_check 4 true pd_sample (recorded4 true) 2 64
                eq_refl Hm) as [H _].
    apply H. unfold value. lia.
  - destruct (location_debug_range_check 4 true pd_sample (recorded4 true) 9 64
                eq_refl Hm) as [_ H].
    apply H. unfold value. lia.
Defined.

Lemma set_location_debug_succeeds_iff_witness :
  well_sized 4 (blank4 true) /\
  set_location 4 true check_passes (blank4 true) 2 4096 = Ok (recorded4 true) /\
  ~ (exists m', set_location 4 true check_passes (blank4 false) 2 4096 = Ok m').
Proof.
  assert (well_sized 4 (blank4 true)) as Hm by (split; reflexivity).
  assert (well_sized 4 (blank4 false)) as Hm0 by (split; reflexivity).
  split; [exact Hm|]. split.
  - apply (set_location_debug_succeeds_iff 4 true check_passes
             (blank4 true) (recorded4 true) 2 4096 eq_refl Hm).
    repeat split. unfold value. lia.
  - intros [m' H].
    apply (set_location_debug_succeeds_iff 4 true check_passes
             (blank4 false) m' 2 4096 eq_refl Hm0) in H.
    destruct H as (_ & Hupd & _). discriminate Hupd.
Defined.

Lemma product_build_out_of_range_witness :
  well_sized 4 (blank4 true) /\
  set_location 4 false check_passes (blank4 true) 9 4096 = Undefined /\
  location 4 false pd_sample (blank4 true) (-1) 64 = Undefined.
Proof.
  assert (well_sized 4 (blank4 true)) as Hm by (split; reflexivity).
  split; [exact Hm|]. split.
  - destruct (product_build_out_of_range 4 false pd_sample check_passes
                (blank4 true) 9 eq_refl Hm) as [H _].
    apply H. unfold value. lia.
  - destruct (product_build_out_of_range 4 false pd_sample check_passes
                (blank4 true) (-1) eq_refl Hm) as [_ H].
    apply H; [unfold value; lia|].
    left. unfold value, min_jint, location_valid_type_size. lia.
Defined.

Lemma trusted_location_unchecked_witness :
  well_sized 4 (recorded4 true) /\
  (exists a, _location (recorded4 true) !! Z.to_nat (value 2) = Some a /\
             trusted_location
               (with_tables (recorded4 true) (_location (recorded4 true)) [0]) 2
             = Ok a) /\
  trusted_location (recorded4 true) 9 = Undefined.
Proof.
  assert (well_sized 4 (recorded4 true)) as Hm by (split; reflexivity).
  split; [exact Hm|].
  destruct (trusted_location_unchecked 4 (recorded4 true) 2 Hm) as [Hin _].
  destruct (trusted_location_unchecked 4 (recorded4 true) 9 Hm) as [_ Hout].
  split; [apply Hin | apply Hout]; unfold value; lia.
Defined.

Lemma set_location_keeps_invariants_witness :
  set_location 70 true check_passes blank70 65 4096
  = Ok (with_location blank70 65 4096) /\
  well_sized 70 (with_location blank70 65 4096) /\
  julong_words (with_location blank70 65 4096) /\
  location_valid_bit (with_location blank70 65 4096) 65 = true.
Proof.
  assert (set_location 70 true check_passes blank70 65 4096
          = Ok (with_location blank70 65 4096)) as Hset by reflexivity.
  split; [exact Hset|].
  destruct (set_location_keeps_invariants 70 true check_passes
              blank70 (with_location blank70 65 4096) 65 4096 Hset)
    as (Hsz & Hw & Hbit & _).
  split; [apply Hsz; split; reflexivity|].
  split; [|exact Hbit].
  apply Hw. repeat constructor; lia.
Defined.

Lemma set_locations_last_write_wins_witness :
  well_sized 4 (blank4 true) /\
  update_map (blank4 true) = true /\
  exists m',
    set_locations 4 true check_passes (blank4 true)
      [(2, 4096); (0, 8); (2, 8192)] = Ok m' /\
    forall r fp, 0 <= value r < 4 ->
      location 4 true pd_upper_half m' r fp =
        match last_write r [(2, 4096); (0, 8); (2, 8192)] with
        | Some a => Ok a
        | None =>
            if location_valid_bit (blank4 true) r
            then location 4 true pd_upper_half (blank4 true) r fp
            else Ok (pd_upper_half m' r)
        end.
Proof.
  assert (well_sized 4 (blank4 true)) as Hm by (split; reflexivity).
  split; [exact Hm|]. split; [reflexivity|].
  apply (set_locations_last_write_wins 4 true pd_upper_half check_passes
           (blank4 true) [(2, 4096); (0, 8); (2, 8192)] Hm eq_refl).
  - repeat constructor; unfold value; simpl; lia.
  - intros m0. reflexivity.
Defined.

Lemma set_location_overwrite_and_commute_witness :
  set_location 70 true check_passes blank70 65 4096
  = Ok (with_location blank70 65 4096) /\
  set_location 70 true check_passes (with_location blank70 65 4096) 66 8192
  = Ok (with_location (with_location blank70 65 4096) 66 8192) /\
  set_location 70 true check_passes blank70 66 8192
  = Ok (with_location blank70 66 8192) /\
  set_location 70 true check_passes (with_location blank70 66 8192) 65 4096
  = Ok (with_location (with_location blank70 65 4096) 66 8192).
Proof.
  assert (set_location 70 true check_passes blank70 65 4096
          = Ok (with_location blank70 65 4096)) as H1 by reflexivity.
  assert (set_location 70 true check_passes (with_location blank70 65 4096) 66 8192
          = Ok (with_location (with_location blank70 65 4096) 66 8192))
    as H2 by reflexivity.
  split; [exact H1|]. split; [exact H2|].
  destruct (set_location_overwrite_and_commute 70 true check_passes
              blank70 _ _ 65 66 4096 8192 H1 H2) as [_ H].
  apply H; [unfold value; lia | reflexivity].
Defined.

Lemma verify_ignores_validity_witness :
  well_sized 4 (recorded4 true) /\
  verify 4 true (recorded4 true)
    (with_tables (recorded4 true) (_location (recorded4 true)) [0]) = Ok tt.
Proof.
  assert (well_sized 4 (recorded4 true)) as Hm by (split; reflexivity).
  split; [exact Hm|].
  destruct (verify_ignores_validity 4 true (recorded4 true) [0] Hm) as [H _].
  exact H.
Defined.

Lemma pd_upper_half_reads_recorded_only : reads_recorded_only pd_upper_half.
Proof.
  intros m1 m2 Hv Hent reg. unfold pd_upper_half.
  assert (location_valid_bit m1 (reg - 1) = location_valid_bit m2 (reg - 1))
    as Hbit by (unfold location_valid_bit; rewrite Hv; reflexivity).
  rewrite <- Hbit.
  destruct (Z.ltb_spec 0 reg); simpl; [|reflexivity].
  destruct (Z.odd reg); simpl; [|reflexivity].
  destruct (location_valid_bit m1 (reg - 1)) eqn:Hset; [|reflexivity].
  assert (0 <= value (reg - 1)) as Hpos by (unfold value; lia).
  pose proof (Hent (reg - 1) Hpos Hset) as He. unfold value in He.
  rewrite He. reflexivity.
Qed.

Lemma pd_upper_half_reads_tables_only : reads_tables_only pd_upper_half.
Proof.
  intros m1 m2 Hl Hv reg. apply pd_upper_half_reads_recorded_only.
  - exact Hv.
  - intros reg' _ _. rewrite Hl. reflexivity.
Qed.

Lemma verify_sees_stale_entries_witness :
  well_sized 4 (recorded4 true) /\
  location_valid_bit (recorded4 true) 1 = false /\
  (forall r' fp, 0 <= value r' < 4 ->
     location 4 true pd_upper_half (with_entry (recorded4 true) 1 4096) r' fp
     = location 4 true pd_upper_half (recorded4 true) r' fp) /\
  is_fatal (verify 4 true (recorded4 true) (with_entry (recorded4 true) 1 4096)).
Proof.
  assert (well_sized 4 (recorded4 true)) as Hm by (split; reflexivity).
  split; [exact Hm|]. split; [reflexivity|].
  destruct (verify_sees_stale_entries 4 true pd_upper_half (recorded4 true) 1 4096
              eq_refl Hm) as [Hloc Hfatal].
  - unfold value. lia.
  - reflexivity.
  - discriminate.
  - split; [exact (Hloc pd_upper_half_reads_recorded_only) | exact Hfatal].
Defined.

Lemma verify_equivalence_witness :
  well_sized 4 (recorded4 true) /\
  well_sized 4 other4 /\
  verify 4 true (recorded4 true) (recorded4 true) = Ok tt /\
  (verify 4 true (recorded4 true) other4 = Ok tt
   <-> verify 4 true other4 (recorded4 true) = Ok tt).
Proof.
  assert (well_sized 4 (recorded4 true)) as Hm by (split; reflexivity).
  assert (well_sized 4 other4) as Ho by (split; reflexivity).
  split; [exact Hm|]. split; [exact Ho|].
  destruct (verify_equivalence 4 true (recorded4 true) other4 (recorded4 true)
              eq_refl Hm Ho Hm) as (Hrefl & Hsym & _).
  split; [exact Hrefl | exact Hsym].
Defined.

Lemma verify_after_set_location_witness :
  well_sized 4 (blank4 true) /\
  set_location 4 true check_passes (blank4 true) 2 4096 = Ok (recorded4 true) /\
  set_location 4 true check_passes (blank4 true) 2 8192 = Ok other4 /\
  verify 4 true (recorded4 true) (recorded4 true) = Ok tt /\
  is_fatal (verify 4 true (recorded4 true) other4).
Proof.
  assert (well_sized 4 (blank4 true)) as Hm by (split; reflexivity).
  assert (set_location 4 true check_passes (blank4 true) 2 4096
          = Ok (recorded4 true)) as H1 by reflexivity.
  assert (set_location 4 true check_passes (blank4 true) 2 8192
          = Ok other4) as H2 by reflexivity.
  split; [exact Hm|]. split; [exact H1|]. split; [exact H2|]. split.
  - destruct (verify_after_set_location 4 true check_passes
                (blank4 true) (blank4 true) _ _ 2 4096 4096 Hm Hm H1 H1)
      as [H _].
    apply H; reflexivity.
  - destruct (verify_after_set_location 4 true check_passes
                (blank4 true) (blank4 true) _ _ 2 4096 8192 Hm Hm H1 H2)
      as [_ H].
    apply H; [lia | reflexivity].
Defined.

Lemma setters_leave_locations_witness :
  setter_step true (recorded4 true) (set_walk_cont (recorded4 true) true) /\
  (forall r fp,
     location 4 true pd_upper_half (set_walk_cont (recorded4 true) true) r fp
     = location 4 true pd_upper_half (recorded4 true) r fp) /\
  update_map (set_walk_cont (recorded4 true) true) = update_map (recorded4 true).
Proof.
  assert (setter_step true (recorded4 true) (set_walk_cont (recorded4 true) true))
    as Hstep by constructor.
  split; [exact Hstep|].
  destruct (setters_leave_locations 4 true pd_upper_half true _ _ Hstep)
    as (Hloc & _ & _ & Hupd & _).
  split; [exact (Hloc pd_upper_half_reads_tables_only) | exact Hupd].
Defined.

Lemma set_location_then_slot_lookup_witness :
  well_sized 4 (blank4 true) /\
  set_location 4 true check_passes (blank4 true) 2 4096 = Ok (recorded4 true) /\
  location_slot 4 true pd_sample pd_slot_sample (recorded4 true) 2 0 = Ok 4096 /\
  location_slot 4 true pd_sample pd_slot_sample (recorded4 true) 2 3
  = Ok (pd_slot_sample (recorded4 true) 2 3).
Proof.
  assert (well_sized 4 (blank4 true)) as Hm by (split; reflexivity).
  assert (set_location 4 true check_passes (blank4 true) 2 4096
          = Ok (recorded4 true)) as H1 by reflexivity.
  split; [exact Hm|]. split; [exact H1|].
  destruct (set_location_then_slot_lookup 4 true pd_sample pd_slot_sample
              check_passes (blank4 true) (recorded4 true) 2 4096 Hm H1)
    as [H0 Hs].
  split; [exact H0|].
  apply Hs. lia.
Defined.
